(** * The block forwarder of the relay (relay/pkg/block/forwarder.go)

    A shallow embedding of the forwarder: the [Forwarder] struct, the push
    phase [pushHeadersToChain], the pull phase [pullHeadersFromQueue] and the
    orchestration [loop], the latter two as a labelled transition system
    whose labels are the moves of the Go scheduler and of the environment
    (producers of the queue, the owner of the context, the timers). *)

From Stdlib Require Import ZArith List Bool Lia String.
From Stdlib Require Import Strings.Byte.
Import ListNotations.
Open Scope Z_scope.

(** ** Machine integers *)

(** Go's [int] on the 64-bit targets of the relay: two's complement. *)
Definition max_int : Z := 2 ^ 63 - 1.
Definition min_int : Z := - 2 ^ 63.

Definition int_wrap (z : Z) : Z := (z + 2 ^ 63) mod 2 ^ 64 - 2 ^ 63.

(** [len(s)] of a slice, as an [int]. *)
Definition len {A : Type} (s : list A) : Z := Z.of_nat (List.length s).

(** Go's [%] truncates towards zero: it is [Z.rem], not [Z.modulo]. *)
Definition go_rem (a b : Z) : Z := Z.rem a b.

(** ** Constants (forwarder.go, lines 12-29) *)

Definition second : Z := 1000000000.

Definition headersQueueSize : Z := 50.
Definition headersBatchSize : Z := 5.
Definition headerTimeout : Z := 1 * second.
Definition difficultyEpochDuration : Z := 2016.
Definition forwarderSleepTime : Z := 45 * second.

(** ** Data *)

(** Modelled from the spec: the declaration of [btc.Header] (package
    [relay/pkg/btc]).  The design gives a header a height, its own 32-byte
    digest and the digest of the header it extends; the tests of the
    forwarder fill the same three fields, [Height] being an [int64]. *)
Record Header : Type := mkHeader {
  Height : Z;
  Hash : list byte;
  PrevHash : list byte
}.

(** Modelled from the spec: the declaration of the interface [chain.Handle]
    (package [relay/pkg/chain]), of which the local chain implements
    [GetBestKnownDigest].  A handle is the log of the calls made through
    it. *)
Inductive hostCall : Type :=
| GetBestKnownDigest.

(** The [Forwarder] struct.  A buffered channel is the list of the values it
    holds, oldest first.  The [btcChain] handle is never used by the
    forwarder and is left out. *)
Record Forwarder : Type := mkForwarder {
  hostChain : list hostCall;
  processedHeaders : Z;
  headersQueue : list Header;
  errChan : list string
}.

Definition set_processedHeaders (f : Forwarder) (p : Z) : Forwarder :=
  {| hostChain := hostChain f;
     processedHeaders := p;
     headersQueue := headersQueue f;
     errChan := errChan f |}.

Definition set_headersQueue (f : Forwarder) (q : list Header) : Forwarder :=
  {| hostChain := hostChain f;
     processedHeaders := processedHeaders f;
     headersQueue := q;
     errChan := errChan f |}.

(** The arm of the if-chain of [pushHeadersToChain] (lines 158-167). *)
Inductive epochClass : Type :=
| DifficultyChangeFirst
| SpansDifficultyChange
| NoDifficultyChange.

(** What the loop goroutine does, in the order it does it. *)
Inductive event : Type :=
| EvCtxDone                          (* a [case <-ctx.Done()] was taken *)
| EvRecv (header : Header)           (* [header := <-f.headersQueue] *)
| EvTimerC                           (* [case <-headerTimer.C] was taken *)
| EvPulled (headers : list Header)   (* [pullHeadersFromQueue] returned *)
| EvPush (headers : list Header)     (* [f.pushHeadersToChain(headers)] *)
| EvBranch (c : epochClass)          (* an arm of lines 158-167 entered *)
| EvUpdateBestHeader (header : Header) (* [f.updateBestHeader(header)] *)
| EvSleep (d : Z)                    (* the select on [time.After(d)] entered *)
| EvWake                             (* [case <-time.After(...)] was taken *)
| EvReturn.                          (* [loop] returned *)

(** ** The push phase *)

(** [updateBestHeader] (lines 177-179): the body is empty. *)
Definition updateBestHeader (f : Forwarder) (header : Header) : Forwarder := f.

(** Lines 158-167: the three arms are empty, only the choice is kept. *)
Definition classify (startDifficulty endDifficulty : Z) : epochClass :=
  if startDifficulty =? 0 then DifficultyChangeFirst
  else if startDifficulty >? endDifficulty then SpansDifficultyChange
  else NoDifficultyChange.

(** [pushHeadersToChain] (lines 150-175).  It returns nothing in Go; here it
    returns the forwarder it leaves behind and what it did. *)
Definition pushHeadersToChain (f : Forwarder) (headers : list Header)
  : Forwarder * list event :=
  match headers with
  | [] => (f, [])
  | first :: _ =>
      let startDifficulty := go_rem (Height first) difficultyEpochDuration in
      let endDifficulty :=
        go_rem (Height (last headers first)) difficultyEpochDuration in
      let c := classify startDifficulty endDifficulty in
      let p := int_wrap (processedHeaders f + len headers) in
      if p >=? headersBatchSize then
        let newBestHeader := last headers first in
        let f1 := updateBestHeader (set_processedHeaders f p) newBestHeader in
        (set_processedHeaders f1 0,
         [EvBranch c; EvUpdateBestHeader newBestHeader])
      else
        (set_processedHeaders f p, [EvBranch c])
  end.

(** ** Creation *)

(** The struct literal of [RunForwarder] (lines 53-58): the counter is the
    zero value, both channels are empty. *)
Definition newForwarder : Forwarder :=
  {| hostChain := [];
     processedHeaders := 0;
     headersQueue := [];
     errChan := [] |}.

(** [ErrChan] (lines 183-185). *)
Definition ErrChan (f : Forwarder) : list string := errChan f.

(** ** Timers, the context and the scheduler *)

(** A [time.Timer]: running for a duration, expired with its tick still in
    the channel [C], or neither (stopped, or expired and drained). *)
Inductive Timer : Type :=
| Active (d : Z)
| Fired
| Idle.

Definition NewTimer (d : Z) : Timer := Active d.

(** [t.Stop()]: true exactly when the call stops a running timer. *)
Definition Stop (t : Timer) : bool * Timer :=
  match t with
  | Active _ => (true, Idle)
  | Fired => (false, Fired)
  | Idle => (false, Idle)
  end.

(** [<-t.C]: blocks ([None]) unless a tick is in the channel. *)
Definition recvC (t : Timer) : option Timer :=
  match t with
  | Fired => Some Idle
  | _ => None
  end.

(** [t.Reset(d)]: a tick left in the channel stays there. *)
Definition Reset (d : Z) (t : Timer) : Timer :=
  match t with
  | Fired => Fired
  | _ => Active d
  end.

(** The cases of the three [select] statements. *)
Inductive selectCase : Type :=
| CaseCtxDone     (* [case <-ctx.Done()] *)
| CaseDefault     (* [default], line 73 *)
| CaseHeader      (* [case header := <-f.headersQueue] *)
| CaseTimer       (* [case <-headerTimer.C] *)
| CaseAfter.      (* [case <-time.After(forwarderSleepTime)] *)

(** One move of the system: of the environment, or of the loop goroutine,
    which commits to a ready case of the select it is parked at and runs up
    to its next select. *)
Inductive label : Type :=
| Send (h : Header)      (* a producer runs [f.headersQueue <- h] *)
| Cancel                 (* the owner calls [cancelCtx()] *)
| Expire                 (* the timer of the pending select expires *)
| Select (c : selectCase).

(** The moves of the environment, on what they can touch: the queue, the
    context ([true] once [ctx.Done()] is closed) and the pending timer.  A
    send on a full queue blocks the producer: the move is not enabled. *)
Definition envStep (l : label) (f : Forwarder) (ctx : bool) (t : Timer)
  : option (Forwarder * bool * Timer) :=
  match l with
  | Send h =>
      if len (headersQueue f) <? headersQueueSize
      then Some (set_headersQueue f (headersQueue f ++ [h]), ctx, t)
      else None
  | Cancel => Some (f, true, t)
  | Expire =>
      match t with
      | Active _ => Some (f, ctx, Fired)
      | _ => None
      end
  | Select _ => None
  end.

(** ** The pull phase *)

Inductive pullOutcome : Type :=
| PullContinue (headers : list Header) (headerTimer : Timer)
| PullReturn (headers : list Header).

(** The condition of the [for] (line 111) and the [return] after it
    (line 147). *)
Definition forCond (headers : list Header) (headerTimer : Timer)
  : pullOutcome :=
  if len headers <? headersBatchSize
  then PullContinue headers headerTimer
  else PullReturn headers.

(** One turn of the [for] of [pullHeadersFromQueue] (lines 114-144), given
    the case the select commits to; [None] when that case is not ready. *)
Definition pullSelect (c : selectCase) (f : Forwarder) (ctx : bool)
    (headers : list Header) (headerTimer : Timer)
  : option (Forwarder * list event * pullOutcome) :=
  match c with
  | CaseHeader =>
      match headersQueue f with
      | [] => None
      | header :: q =>
          let headers' := headers ++ [header] in
          let (stopped, t1) := Stop headerTimer in
          match (if negb stopped then recvC t1 else Some t1) with
          | None => None
          | Some t2 =>
              Some (set_headersQueue f q, [EvRecv header],
                    forCond headers' (Reset headerTimeout t2))
          end
      end
  | CaseTimer =>
      match recvC headerTimer with
      | None => None
      | Some t1 =>
          if len headers >? 0
          then Some (f, [EvTimerC], PullReturn headers)
          else Some (f, [EvTimerC], forCond headers (Reset headerTimeout t1))
      end
  | CaseCtxDone =>
      if ctx then Some (f, [EvCtxDone], PullReturn headers) else None
  | _ => None
  end.

(** [pullHeadersFromQueue] from the middle of its [for], under a schedule:
    the batch it returns, the forwarder and the context it leaves, and the
    rest of the schedule; [None] while it is still parked at its select when
    the schedule ends, or when the schedule asks for a move that is not
    enabled. *)
Fixpoint pullRun (ls : list label) (f : Forwarder) (ctx : bool)
    (headers : list Header) (headerTimer : Timer)
  : option (list Header * Forwarder * bool * list label) :=
  match ls with
  | [] => None
  | Select c :: ls' =>
      match pullSelect c f ctx headers headerTimer with
      | None => None
      | Some (f', _, PullReturn r) => Some (r, f', ctx, ls')
      | Some (f', _, PullContinue headers' t') => pullRun ls' f' ctx headers' t'
      end
  | l :: ls' =>
      match envStep l f ctx headerTimer with
      | None => None
      | Some (f', ctx', t') => pullRun ls' f' ctx' headers t'
      end
  end.

(** [pullHeadersFromQueue] (lines 105-148), from its entry. *)
Definition pullHeadersFromQueue (ls : list label) (f : Forwarder) (ctx : bool)
  : option (list Header * Forwarder * bool * list label) :=
  match forCond [] (NewTimer headerTimeout) with
  | PullContinue headers t => pullRun ls f ctx headers t
  | PullReturn r => Some (r, f, ctx, ls)
  end.

(** ** The orchestration loop *)

(** Where the loop goroutine is parked, with its live local variables. *)
Inductive pc : Type :=
| LoopSelect                                  (* the select of line 69 *)
| PullSelect (headers : list Header) (headerTimer : Timer)  (* line 114 *)
| SleepSelect (after : Timer)                 (* the select of line 94 *)
| Returned.                                   (* after line 72 *)

Record World : Type := mkWorld {
  fwd : Forwarder;
  ctx : bool;
  at_pc : pc;
  trace : list event
}.

(** Lines 77-97 of [loop], from the return of [pullHeadersFromQueue] to the
    next select. *)
Definition afterPull (f : Forwarder) (headers : list Header)
  : Forwarder * list event * pc :=
  if len headers =? 0 then (f, [EvPulled headers], LoopSelect)
  else
    let (f', evs) := pushHeadersToChain f headers in
    (f',
     EvPulled headers :: EvPush headers :: evs ++ [EvSleep forwarderSleepTime],
     SleepSelect (NewTimer forwarderSleepTime)).

(** Where the pull phase leaves the loop. *)
Definition resume (f : Forwarder) (o : pullOutcome)
  : Forwarder * list event * pc :=
  match o with
  | PullContinue headers t => (f, [], PullSelect headers t)
  | PullReturn headers => afterPull f headers
  end.

Definition pendingTimer (p : pc) : Timer :=
  match p with
  | PullSelect _ t => t
  | SleepSelect t => t
  | _ => Idle
  end.

Definition withTimer (p : pc) (t : Timer) : pc :=
  match p with
  | PullSelect headers _ => PullSelect headers t
  | SleepSelect _ => SleepSelect t
  | _ => p
  end.

(** A move of the loop goroutine (lines 65-100). *)
Definition loopSelect (c : selectCase) (w : World) : option World :=
  match at_pc w with
  | LoopSelect =>
      match c with
      | CaseCtxDone =>
          if ctx w
          then Some (mkWorld (fwd w) (ctx w) Returned
                       (trace w ++ [EvCtxDone; EvReturn]))
          else None
      | CaseDefault =>
          if ctx w then None
          else
            let '(f, evs, p) :=
              resume (fwd w) (forCond [] (NewTimer headerTimeout)) in
            Some (mkWorld f (ctx w) p (trace w ++ evs))
      | _ => None
      end
  | PullSelect headers headerTimer =>
      match pullSelect c (fwd w) (ctx w) headers headerTimer with
      | None => None
      | Some (f, evs, o) =>
          let '(f', evs', p) := resume f o in
          Some (mkWorld f' (ctx w) p (trace w ++ evs ++ evs'))
      end
  | SleepSelect after =>
      match c with
      | CaseAfter =>
          match recvC after with
          | Some _ =>
              Some (mkWorld (fwd w) (ctx w) LoopSelect (trace w ++ [EvWake]))
          | None => None
          end
      | CaseCtxDone =>
          if ctx w
          then Some (mkWorld (fwd w) (ctx w) LoopSelect
                       (trace w ++ [EvCtxDone]))
          else None
      | _ => None
      end
  | Returned => None
  end.

(** One move of the whole system. *)
Definition step (l : label) (w : World) : option World :=
  match l with
  | Select c => loopSelect c w
  | _ =>
      match envStep l (fwd w) (ctx w) (pendingTimer (at_pc w)) with
      | None => None
      | Some (f, c, t) => Some (mkWorld f c (withTimer (at_pc w) t) (trace w))
      end
  end.

Fixpoint run (ls : list label) (w : World) : option World :=
  match ls with
  | [] => Some w
  | l :: ls' =>
      match step l w with
      | None => None
      | Some w' => run ls' w'
      end
  end.

(** [RunForwarder] (lines 48-63): the goroutine is started at the top of
    its loop. *)
Definition RunForwarder : World :=
  mkWorld newForwarder false LoopSelect [].

(** ** Observations on traces and schedules *)

(** The batches pushed, the headers received and the best headers handed to
    [updateBestHeader], in order. *)
Fixpoint pushes (tr : list event) : list (list Header) :=
  match tr with
  | [] => []
  | EvPush hs :: tr' => hs :: pushes tr'
  | _ :: tr' => pushes tr'
  end.

Fixpoint recvs (tr : list event) : list Header :=
  match tr with
  | [] => []
  | EvRecv h :: tr' => h :: recvs tr'
  | _ :: tr' => recvs tr'
  end.

Fixpoint updates (tr : list event) : list Header :=
  match tr with
  | [] => []
  | EvUpdateBestHeader h :: tr' => h :: updates tr'
  | _ :: tr' => updates tr'
  end.

(** The headers the producers send under a schedule. *)
Fixpoint sends (ls : list label) : list Header :=
  match ls with
  | [] => []
  | Send h :: ls' => h :: sends ls'
  | _ :: ls' => sends ls'
  end.

(** A push that is split in two sub-submissions makes two calls on the host
    chain. *)
Definition splitInTwo (f f' : Forwarder) : Prop :=
  exists c1 c2, hostChain f' = hostChain f ++ [c1; c2].

(** A push that updates the best-known digest of the host chain makes a
    call on the host chain. *)
Definition bestDigestUpdated (f f' : Forwarder) : Prop :=
  exists c calls, hostChain f' = hostChain f ++ c :: calls.

(** Nothing is pushed, and no best header is handed over, after a
    [case <-ctx.Done()] was taken. *)
Definition quietAfterCtxDone (tr : list event) : Prop :=
  forall pre post,
    tr = pre ++ EvCtxDone :: post -> pushes post = [] /\ updates post = [].

(** Two forwarders that differ at most in their queue. *)
Definition sameButQueue (f f' : Forwarder) : Prop :=
  processedHeaders f' = processedHeaders f /\
  hostChain f' = hostChain f /\
  errChan f' = errChan f.

(** The loop has seen the cancellation and is out of the pull phase. *)
Definition cancelled (w : World) : Prop :=
  ctx w = true /\
  match at_pc w with
  | PullSelect _ _ => False
  | _ => True
  end.

(** What holds of every world the forwarder can be in. *)
Definition timerLive (t : Timer) : Prop :=
  match t with
  | Idle => False
  | _ => True
  end.

Definition wellFormed (w : World) : Prop :=
  0 <= processedHeaders (fwd w) < headersBatchSize /\
  errChan (fwd w) = [] /\
  hostChain (fwd w) = [] /\
  match at_pc w with
  | PullSelect headers t => len headers < headersBatchSize /\ timerLive t
  | _ => True
  end.

(** ** Inputs of the tests and of the examples *)

(** Go's conversion [byte(i)]. *)
Definition byte_of_Z (z : Z) : byte :=
  match Byte.of_N (Z.to_N (z mod 256)) with
  | Some b => b
  | None => x00
  end.

(** A [[32]byte] that is zero but for its last byte. *)
Definition digest31 (b : byte) : list byte := repeat x00 31 ++ [b].

(** A header of the given height whose digests are those of
    [TestForwarder_PushingLoop_ErrorShutdown]: [hash[31] = byte(i)],
    [prevHash[31] = byte(i - 1)]. *)
Definition headerAt (i : Z) : Header :=
  mkHeader i (digest31 (byte_of_Z i)) (digest31 (byte_of_Z (i - 1))).

(** The ten sends of the test, then the loop pulling the first batch. *)
Definition errorShutdownSchedule : list label :=
  map (fun i => Send (headerAt i)) [1; 2; 3; 4; 5; 6; 7; 8; 9; 10] ++
  Select CaseDefault :: repeat (Select CaseHeader) 5.

(** The loop after its rest, pulling the second batch. *)
Definition errorShutdownContinued : list label :=
  errorShutdownSchedule ++
  [Expire; Select CaseAfter; Select CaseDefault] ++
  repeat (Select CaseHeader) 5.

(** Three headers are pushed after an idle timeout; two more are pulled and
    then the context is cancelled. *)
Definition cancelDuringPullSchedule : list label :=
  [Send (headerAt 1); Send (headerAt 2); Send (headerAt 3);
   Select CaseDefault;
   Select CaseHeader; Select CaseHeader; Select CaseHeader;
   Expire; Select CaseTimer;
   Expire; Select CaseAfter;
   Select CaseDefault;
   Send (headerAt 4); Send (headerAt 5); Send (headerAt 6);
   Select CaseHeader; Select CaseHeader;
   Cancel; Select CaseCtxDone;
   Select CaseCtxDone; Select CaseCtxDone].

Definition traceOf (ls : list label) : list event :=
  match run ls RunForwarder with
  | Some w => trace w
  | None => []
  end.

(** ** Observations on the whole run *)

(** The headers the loop holds between the queue and the push: the batch
    it is accumulating in the pull phase. *)
Definition held (p : pc) : list Header :=
  match p with
  | PullSelect headers _ => headers
  | _ => []
  end.

(** All the headers pushed so far, in the order they were pushed. *)
Definition pushed (tr : list event) : list Header :=
  List.concat (pushes tr).

(** A scan of a trace for the rest between pushes: [awake] tells whether
    [case <-time.After(...)] was taken since the last push; a push while not
    awake makes the scan fail. *)
Fixpoint restScan (awake : bool) (tr : list event) : option bool :=
  match tr with
  | [] => Some awake
  | EvPush _ :: tr' => if awake then restScan false tr' else None
  | EvWake :: tr' => restScan true tr'
  | _ :: tr' => restScan awake tr'
  end.

(** Whether the loop is where a push may follow without a rest: it is
    not, from the push to the expiry of the rest. *)
Definition mayPush (w : World) : bool :=
  match at_pc w with
  | PullSelect _ _ => true
  | LoopSelect => negb (ctx w)
  | _ => false
  end.

(** Heights that follow one another from the first header on. *)
Fixpoint contiguousFrom (h : Z) (headers : list Header) : Prop :=
  match headers with
  | [] => True
  | x :: headers' => Height x = h /\ contiguousFrom (h + 1) headers'
  end.

(** What a turn of the pull phase logs, with the headers it took off the
    queue. *)
Definition turnEvent (e : event) (got : list Header) (ctx : bool) : Prop :=
  (exists h, e = EvRecv h /\ got = [h]) \/
  (e = EvTimerC /\ got = []) \/
  (e = EvCtxDone /\ got = [] /\ ctx = true).

(** The moves that are not the goroutine's. *)
Definition isEnv (l : label) : bool :=
  match l with
  | Select _ => false
  | _ => true
  end.

(** ** What the run keeps *)

(** The batches pushed so far are of the size of a batch. *)
Definition batchesSized (w : World) : Prop :=
  wellFormed w /\
  Forall (fun b => 1 <= len b <= headersBatchSize) (pushes (trace w)).

(** The trace so far keeps the rest between pushes, and the loop is awake
    wherever a push may follow. *)
Definition restedSoFar (w : World) : Prop :=
  exists a, restScan true (trace w) = Some a /\ (mayPush w = true -> a = true).

(** The hand-overs of the best header against the headers pushed. *)
Definition accounted (w : World) : Prop :=
  wellFormed w /\
  5 * len (updates (trace w)) + processedHeaders (fwd w)
    <= len (pushed (trace w))
    <= 9 * len (updates (trace w)) + processedHeaders (fwd w).

(** A loop that has returned has seen the cancellation at its top. *)
Definition stoppedByCancel (w : World) : Prop :=
  at_pc w = Returned ->
  ctx w = true /\ exists tr, trace w = tr ++ [EvCtxDone; EvReturn].

(** The timers in force. *)
Definition timersSet (w : World) : Prop :=
  match at_pc w with
  | PullSelect _ t => t = Active headerTimeout \/ t = Fired
  | SleepSelect t => t = Active forwarderSleepTime \/ t = Fired
  | _ => True
  end.

(** * Properties *)

(** A move of the environment in a hypothesis [H : step l w = Some w']:
    expose what [envStep] returned, as [Henv]. *)
Ltac env_move H Henv :=
  cbn [step] in H;
  match type of H with
  | match envStep ?l ?f ?c ?t with _ => _ end = _ =>
      let f1 := fresh "f" in
      let c1 := fresh "c" in
      let t1 := fresh "t" in
      destruct (envStep l f c t) as [[[f1 c1] t1] |] eqn:Henv;
      [inversion H; subst; clear H; cbn [fwd at_pc ctx trace]
      | discriminate H]
  end.

(** A closed trace or schedule, run by the virtual machine. *)
Ltac by_running := vm_compute; reflexivity.

(** ** Arithmetic of the embedding *)

Lemma int_wrap_id (z : Z) : min_int <= z <= max_int -> int_wrap z = z.
Proof.
  unfold int_wrap, min_int, max_int. intros Hz.
  rewrite Z.mod_small by lia. lia.
Qed.

Lemma len_nonneg {A : Type} (s : list A) : 0 <= len s.
Proof. unfold len. lia. Qed.

Lemma len_cons {A : Type} (a : A) (s : list A) : len (a :: s) = len s + 1.
Proof. unfold len. cbn [List.length]. lia. Qed.

Lemma len_app {A : Type} (s1 s2 : list A) : len (s1 ++ s2) = len s1 + len s2.
Proof. unfold len. rewrite length_app. lia. Qed.

Lemma len_zero {A : Type} (s : list A) : len s = 0 -> s = [].
Proof. destruct s; [reflexivity|]. rewrite len_cons. pose proof (len_nonneg s). lia. Qed.

(** On heights that are not negative Go's [%] is the mathematical mod. *)
Lemma go_rem_mod (a : Z) :
  0 <= a -> go_rem a difficultyEpochDuration = a mod difficultyEpochDuration.
Proof.
  intros Ha. unfold go_rem, difficultyEpochDuration.
  apply Z.rem_mod_nonneg; lia.
Qed.

Lemma classify_cases (s e : Z) :
  (classify s e = DifficultyChangeFirst <-> s = 0) /\
  (classify s e = SpansDifficultyChange <-> s <> 0 /\ s > e) /\
  (classify s e = NoDifficultyChange <-> s <> 0 /\ s <= e).
Proof.
  unfold classify.
  destruct (Z.eqb_spec s 0) as [Hs | Hs];
    [| destruct (Z.gtb_spec s e) as [Hg | Hg]];
    repeat split; intros; try discriminate; try lia; try tauto.
Qed.

(** ** The push phase *)

Section Push.

Variable f : Forwarder.
Variables (first : Header) (rest : list Header).

(** The arm a batch that starts with [first] enters. *)
Local Abbreviation arm :=
  (classify
     (go_rem (Height first) difficultyEpochDuration)
     (go_rem (Height (last (first :: rest) first)) difficultyEpochDuration)).
Local Abbreviation sum := (int_wrap (processedHeaders f + len (first :: rest))).

(** What a push of a batch that is not empty leaves, by the size the
    counter reaches. *)
Lemma push_below_threshold :
  sum < headersBatchSize ->
  pushHeadersToChain f (first :: rest) =
    (set_processedHeaders f sum, [EvBranch arm]).
Proof.
  intros Hlt. unfold pushHeadersToChain.
  destruct (Z.geb_spec sum headersBatchSize) as [Hge | _];
    [lia | reflexivity].
Qed.

Lemma push_at_threshold :
  headersBatchSize <= sum ->
  pushHeadersToChain f (first :: rest) =
    (set_processedHeaders f 0,
     [EvBranch arm; EvUpdateBestHeader (last (first :: rest) first)]).
Proof.
  intros Hge. unfold pushHeadersToChain.
  destruct (Z.geb_spec sum headersBatchSize) as [_ | Hlt];
    [reflexivity | lia].
Qed.

Lemma push_cases :
  pushHeadersToChain f (first :: rest) =
    (set_processedHeaders f sum, [EvBranch arm]) /\
  sum < headersBatchSize
  \/
  pushHeadersToChain f (first :: rest) =
    (set_processedHeaders f 0,
     [EvBranch arm; EvUpdateBestHeader (last (first :: rest) first)]) /\
  headersBatchSize <= sum.
Proof.
  destruct (Z_lt_le_dec sum headersBatchSize) as [Hlt | Hge].
  - left. split; [apply push_below_threshold; exact Hlt | exact Hlt].
  - right. split; [apply push_at_threshold; exact Hge | exact Hge].
Qed.

(** A push never touches the channels nor the host chain handle. *)
Lemma push_frame :
  hostChain (fst (pushHeadersToChain f (first :: rest))) = hostChain f /\
  headersQueue (fst (pushHeadersToChain f (first :: rest))) = headersQueue f /\
  errChan (fst (pushHeadersToChain f (first :: rest))) = errChan f.
Proof.
  destruct push_cases as [[-> _] | [-> _]]; cbn; auto.
Qed.

End Push.

(** C1, as the code has it.  A batch that is not empty is classified from
    [headers[0].Height % 2016] and [headers[len-1].Height % 2016] before
    anything else is done: the first thing the push does is to enter an arm,
    boundary-first exactly when the start remainder is 0, otherwise
    boundary-spanning exactly when the start remainder is greater than the
    end remainder, otherwise single-epoch; for heights that are not negative
    the remainders are the heights mod 2016.  All that follows the choice of
    the arm is the hand-over of the best header: no arm submits anything, the
    host chain handle is not called for any class of batch, so a spanning
    batch is never submitted as a single unit. *)
Theorem C1_classification_before_any_call :
  forall (f : Forwarder) (first : Header) (rest : list Header),
    let headers := first :: rest in
    let s := go_rem (Height first) difficultyEpochDuration in
    let e := go_rem (Height (last headers first)) difficultyEpochDuration in
    exists c calls,
      snd (pushHeadersToChain f headers) = EvBranch c :: calls /\
      (c = DifficultyChangeFirst <-> s = 0) /\
      (c = SpansDifficultyChange <-> s <> 0 /\ s > e) /\
      (c = NoDifficultyChange <-> s <> 0 /\ s <= e) /\
      (calls = [] \/ calls = [EvUpdateBestHeader (last headers first)]) /\
      hostChain (fst (pushHeadersToChain f headers)) = hostChain f /\
      (0 <= Height first -> 0 <= Height (last headers first) ->
       s = Height first mod 2016 /\ e = Height (last headers first) mod 2016).
Proof.
  intros f first rest headers s e.
  exists (classify s e).
  destruct (push_cases f first rest) as [[Hp _] | [Hp _]];
    fold headers in Hp; fold s in Hp; fold e in Hp.
  - exists []. rewrite Hp. cbn [fst snd].
    destruct (classify_cases s e) as (H1 & H2 & H3).
    split; [reflexivity |]. split; [exact H1 |]. split; [exact H2 |].
    split; [exact H3 |]. split; [left; reflexivity |]. split; [reflexivity |].
    intros Hf Hl. split; apply go_rem_mod; assumption.
  - exists [EvUpdateBestHeader (last headers first)]. rewrite Hp. cbn [fst snd].
    destruct (classify_cases s e) as (H1 & H2 & H3).
    split; [reflexivity |]. split; [exact H1 |]. split; [exact H2 |].
    split; [exact H3 |]. split; [right; reflexivity |]. split; [reflexivity |].
    intros Hf Hl. split; apply go_rem_mod; assumption.
Qed.

(** The heights 2015 and 2016 straddle the boundary at 2016. *)
Lemma C1_classification_witness :
  exists c calls,
    snd (pushHeadersToChain newForwarder [headerAt 2015; headerAt 2016]) =
      EvBranch c :: calls /\
    c = SpansDifficultyChange /\
    go_rem 2015 difficultyEpochDuration = 2015 mod 2016 /\
    go_rem 2016 difficultyEpochDuration = 2016 mod 2016.
Proof.
  destruct (C1_classification_before_any_call newForwarder (headerAt 2015)
              [headerAt 2016]) as (c & calls & Htr & _ & Hspan & _ & _ & _ & Hmod).
  exists c, calls. split; [exact Htr |].
  split.
  - apply Hspan. cbn. split; [discriminate | reflexivity].
  - apply Hmod; cbn; discriminate.
Defined.

(** C1, as the claim states it, fails: the batch of heights 2015 and 2016
    spans the boundary, the spanning arm is entered, and the push makes no
    call on the host chain at all, let alone two sub-submissions. *)
Lemma C1_spanning_batch_is_not_split :
  let f' := fst (pushHeadersToChain newForwarder [headerAt 2015; headerAt 2016]) in
  snd (pushHeadersToChain newForwarder [headerAt 2015; headerAt 2016]) =
    [EvBranch SpansDifficultyChange] /\
  hostChain f' = [] /\
  ~ splitInTwo newForwarder f'.
Proof.
  cbv zeta. split; [reflexivity |]. split; [reflexivity |].
  intros (c1 & c2 & H). cbn in H. discriminate H.
Qed.

(** C3, as the code has it.  A push of [n > 0] headers adds [n] to
    [processedHeaders] (the sum fits an [int]); when the sum is 5 or more,
    [updateBestHeader] is called, once, with the last header of the batch,
    and the counter is left at 0; otherwise the counter keeps the sum and
    [updateBestHeader] is not called.  [updateBestHeader] has an empty body:
    called or not, the push makes no call on the host chain, so no
    best-known digest is written there. *)
Theorem C3_counter_and_best_header :
  forall (f : Forwarder) (first : Header) (rest : list Header),
    let headers := first :: rest in
    let n := len headers in
    min_int <= processedHeaders f ->
    processedHeaders f + n <= max_int ->
    let (f', tr) := pushHeadersToChain f headers in
    (processedHeaders f + n >= headersBatchSize ->
       processedHeaders f' = 0 /\ updates tr = [last headers first]) /\
    (processedHeaders f + n < headersBatchSize ->
       processedHeaders f' = processedHeaders f + n /\ updates tr = []) /\
    pushes tr = [] /\
    hostChain f' = hostChain f /\
    updateBestHeader f' (last headers first) = f'.
Proof.
  intros f first rest headers n Hmin Hmax.
  assert (Hw : int_wrap (processedHeaders f + n) = processedHeaders f + n).
  { apply int_wrap_id. pose proof (len_nonneg headers). unfold n. lia. }
  destruct (push_cases f first rest) as [[Hp Hlt] | [Hp Hge]];
    fold headers in Hp, Hlt || fold headers in Hp, Hge;
    rewrite Hp; unfold n in Hw.
  - rewrite Hw in *. unfold n.
    cbn [processedHeaders hostChain set_processedHeaders updates pushes].
    repeat split; intros; try lia; reflexivity.
  - rewrite Hw in *. unfold n.
    cbn [processedHeaders hostChain set_processedHeaders updates pushes].
    repeat split; intros; try lia; reflexivity.
Qed.

(** With the counter at 3, a push of two headers reaches 5. *)
Lemma C3_counter_and_best_header_witness :
  let (f', tr) :=
    pushHeadersToChain (set_processedHeaders newForwarder 3)
      [headerAt 7; headerAt 8] in
  processedHeaders f' = 0 /\
  updates tr = [headerAt 8] /\
  hostChain f' = [].
Proof.
  pose proof (C3_counter_and_best_header (set_processedHeaders newForwarder 3)
                (headerAt 7) [headerAt 8]) as H.
  cbv zeta in H.
  destruct (pushHeadersToChain (set_processedHeaders newForwarder 3)
              [headerAt 7; headerAt 8]) as [f' tr].
  destruct H as (Hge & _ & _ & Hh & _);
    [cbn; discriminate | cbn; discriminate |].
  destruct Hge as [Hp Hu]; [cbn; discriminate |].
  split; [exact Hp |]. split; [exact Hu |]. exact Hh.
Defined.

(** C3, as the claim states it, fails.  With the counter at 3 a push of the
    headers 7 and 8 reaches 5: [updateBestHeader] is called with header 8 and
    the counter is reset, but the best-known digest of the host chain is not
    updated: the host chain handle is not called at all. *)
Lemma C3_best_digest_is_not_updated :
  let f := set_processedHeaders newForwarder 3 in
  let f' := fst (pushHeadersToChain f [headerAt 7; headerAt 8]) in
  snd (pushHeadersToChain f [headerAt 7; headerAt 8]) =
    [EvBranch NoDifficultyChange; EvUpdateBestHeader (headerAt 8)] /\
  processedHeaders f' = 0 /\
  hostChain f' = hostChain f /\
  ~ bestDigestUpdated f f'.
Proof.
  cbv zeta. split; [reflexivity |]. split; [reflexivity |].
  split; [reflexivity |].
  intros (c & calls & H). cbn in H. discriminate H.
Qed.

(** C10.  A push of the empty batch returns at once: no arm is entered,
    [updateBestHeader] is not called, and the forwarder (counter, queue,
    error channel, host chain handle) is left as it was. *)
Theorem C10_empty_batch_is_noop :
  forall f : Forwarder,
    fst (pushHeadersToChain f []) = f /\
    snd (pushHeadersToChain f []) = [] /\
    processedHeaders (fst (pushHeadersToChain f [])) = processedHeaders f.
Proof.
  intros f. repeat split.
Qed.

(** ** The pull phase *)

Lemma forCond_return (headers r : list Header) (t : Timer) :
  forCond headers t = PullReturn r ->
  r = headers /\ headersBatchSize <= len headers.
Proof.
  unfold forCond.
  destruct (Z.ltb_spec (len headers) headersBatchSize) as [Hlt | Hge];
    intros H; inversion H; subst; auto.
Qed.

Lemma forCond_continue (headers hs' : list Header) (t t' : Timer) :
  forCond headers t = PullContinue hs' t' ->
  hs' = headers /\ t' = t /\ len headers < headersBatchSize.
Proof.
  unfold forCond.
  destruct (Z.ltb_spec (len headers) headersBatchSize) as [Hlt | Hge];
    intros H; inversion H; subst; auto.
Qed.

(** What one turn of the [for] can return, from a batch below the size. *)
Lemma pullSelect_return (c : selectCase) (f f' : Forwarder) (ctx : bool)
    (headers r : list Header) (t : Timer) (evs : list event) :
  len headers < headersBatchSize ->
  pullSelect c f ctx headers t = Some (f', evs, PullReturn r) ->
  len r <= headersBatchSize.
Proof.
  intros Hlt Hsel. destruct c; cbn in Hsel; try discriminate.
  - destruct ctx; inversion Hsel; subst. lia.
  - destruct (headersQueue f) as [| header q]; [discriminate |].
    destruct (Stop t) as [stopped t1].
    destruct (if negb stopped then recvC t1 else Some t1) as [t2 |];
      [| discriminate].
    inversion Hsel as [[Hf Hev Hfc]].
    apply forCond_return in Hfc.
    destruct Hfc as [-> _]. rewrite len_app. cbn. lia.
  - destruct (recvC t) as [t1 |]; [| discriminate].
    destruct (len headers >? 0).
    + inversion Hsel; subst. lia.
    + inversion Hsel as [[Hf Hev Hfc]].
      apply forCond_return in Hfc. lia.
Qed.

Lemma pullSelect_continue (c : selectCase) (f f' : Forwarder) (ctx : bool)
    (headers hs' : list Header) (t t' : Timer) (evs : list event) :
  pullSelect c f ctx headers t = Some (f', evs, PullContinue hs' t') ->
  len hs' < headersBatchSize /\ timerLive t'.
Proof.
  intros Hsel. destruct c; cbn in Hsel; try discriminate.
  - destruct ctx; discriminate.
  - destruct (headersQueue f) as [| header q]; [discriminate |].
    destruct (Stop t) as [stopped t1] eqn:Hstop.
    destruct (if negb stopped then recvC t1 else Some t1) as [t2 |] eqn:Ht2;
      [| discriminate].
    inversion Hsel as [[Hf Hev Hfc]].
    apply forCond_continue in Hfc. destruct Hfc as (-> & -> & Hlt).
    split; [exact Hlt |].
    destruct t; cbn in Hstop; inversion Hstop; subst; cbn in Ht2;
      inversion Ht2; subst; exact I.
  - destruct (recvC t) as [t1 |] eqn:Hrecv; [| discriminate].
    destruct (len headers >? 0); [discriminate |].
    inversion Hsel as [[Hf Hev Hfc]].
    apply forCond_continue in Hfc. destruct Hfc as (-> & -> & Hlt).
    split; [exact Hlt |].
    destruct t; cbn in Hrecv; inversion Hrecv; subst; exact I.
Qed.

Lemma pullRun_at_most_batch (ls : list label) :
  forall (f : Forwarder) (ctx : bool) (headers : list Header) (t : Timer)
         (r : list Header) (f' : Forwarder) (ctx' : bool) (rest : list label),
    len headers < headersBatchSize ->
    pullRun ls f ctx headers t = Some (r, f', ctx', rest) ->
    len r <= headersBatchSize.
Proof.
  induction ls as [| l ls IH]; intros f ctx headers t r f' ctx' rest Hlt Hrun;
    [discriminate |].
  destruct l as [h | | | c]; cbn [pullRun] in Hrun.
  1-3: destruct (envStep _ f ctx t) as [[[f1 ctx1] t1] |]; [| discriminate];
       eapply IH; eassumption.
  destruct (pullSelect c f ctx headers t) as [[[f1 evs] [hs1 t1 | r1]] |] eqn:Hsel;
    [| | discriminate].
  - apply pullSelect_continue in Hsel. eapply IH; [apply Hsel | eassumption].
  - inversion Hrun; subst. eapply pullSelect_return; eassumption.
Qed.

(** C4.  Whatever the schedule, the batch [pullHeadersFromQueue] returns has
    at most 5 headers; and parked at its select with 4 headers, the receipt
    of a 5th makes it return the 5 at once: the very move that receives the
    header returns the batch, whatever the state of the idle timer and of the
    context and whatever the schedule holds next, of which nothing is
    consumed.  From its entry, with five headers in the queue and the
    select taking the queue five times, it returns those five, in the order
    of the queue. *)
Theorem C4_pull_returns_at_most_five :
  (forall (ls : list label) (f : Forwarder) (ctx : bool)
          (r : list Header) (f' : Forwarder) (ctx' : bool) (rest : list label),
      pullHeadersFromQueue ls f ctx = Some (r, f', ctx', rest) ->
      len r <= 5) /\
  (forall (ls : list label) (f : Forwarder) (ctx : bool)
          (headers : list Header) (t : Timer) (header : Header)
          (q : list Header),
      len headers = 4 ->
      timerLive t ->
      headersQueue f = header :: q ->
      pullRun (Select CaseHeader :: ls) f ctx headers t =
        Some (headers ++ [header], set_headersQueue f q, ctx, ls)) /\
  (forall (ls : list label) (f : Forwarder) (ctx : bool)
          (h1 h2 h3 h4 h5 : Header) (q : list Header),
      headersQueue f = h1 :: h2 :: h3 :: h4 :: h5 :: q ->
      pullHeadersFromQueue (repeat (Select CaseHeader) 5 ++ ls) f ctx =
        Some ([h1; h2; h3; h4; h5], set_headersQueue f q, ctx, ls)).
Proof.
  split; [| split].
  - intros ls f ctx r f' ctx' rest Hpull.
    change (pullHeadersFromQueue ls f ctx)
      with (pullRun ls f ctx [] (NewTimer headerTimeout)) in Hpull.
    apply pullRun_at_most_batch in Hpull; [exact Hpull | reflexivity].
  - intros ls f ctx headers t header q Hlen Hlive Hq.
    cbn [pullRun pullSelect]. rewrite Hq.
    assert (Hfc : forall t', forCond (headers ++ [header]) t' =
                             PullReturn (headers ++ [header])).
    { intros t'. unfold forCond. rewrite len_app, Hlen. reflexivity. }
    destruct t as [d | |]; cbn in Hlive |- *; [| | contradiction];
      rewrite Hfc; reflexivity.
  - intros ls f ctx h1 h2 h3 h4 h5 q Hq.
    unfold pullHeadersFromQueue. cbn. rewrite Hq. reflexivity.
Qed.

Lemma C4_pull_returns_at_most_five_witness :
  len [headerAt 1; headerAt 2] <= 5 /\
  pullRun [Select CaseHeader; Cancel]
    (set_headersQueue newForwarder [headerAt 5; headerAt 6]) true
    [headerAt 1; headerAt 2; headerAt 3; headerAt 4] Fired =
  Some ([headerAt 1; headerAt 2; headerAt 3; headerAt 4] ++ [headerAt 5],
        set_headersQueue
          (set_headersQueue newForwarder [headerAt 5; headerAt 6])
          [headerAt 6],
        true, [Cancel]).
Proof.
  split.
  - apply (proj1 C4_pull_returns_at_most_five
             [Send (headerAt 1); Send (headerAt 2);
              Select CaseHeader; Select CaseHeader; Expire; Select CaseTimer]
             newForwarder false [headerAt 1; headerAt 2]
             newForwarder false []).
    reflexivity.
  - apply (proj1 (proj2 C4_pull_returns_at_most_five));
      [reflexivity | exact I | reflexivity].
Defined.

(** C5.  When the select takes the tick of the idle timer (armed with the
    timeout of one second, fired by its expiry): with a batch that is not
    empty the pull returns exactly that batch in the same move, the queue
    untouched; with no header yet it returns nothing, the timer is armed
    again with one second and the pull stays parked at its select, going on
    with the schedule. *)
Theorem C5_idle_timer :
  headerTimeout = 1000000000 /\
  (forall (f : Forwarder) (ctx : bool),
      envStep Expire f ctx (NewTimer headerTimeout) = Some (f, ctx, Fired)) /\
  (forall (ls : list label) (f : Forwarder) (ctx : bool)
          (header : Header) (headers : list Header),
      pullRun (Select CaseTimer :: ls) f ctx (header :: headers) Fired =
        Some (header :: headers, f, ctx, ls)) /\
  (forall (f : Forwarder) (ctx : bool),
      pullSelect CaseTimer f ctx [] Fired =
        Some (f, [EvTimerC], PullContinue [] (Active headerTimeout))) /\
  (forall (ls : list label) (f : Forwarder) (ctx : bool),
      pullRun (Select CaseTimer :: ls) f ctx [] Fired =
        pullRun ls f ctx [] (Active headerTimeout)).
Proof.
  split; [reflexivity |]. split; [reflexivity |]. split; [| split].
  - intros ls f ctx header headers. cbn [pullRun pullSelect recvC].
    rewrite len_cons.
    destruct (Z.gtb_spec (len headers + 1) 0) as [_ | Hle]; [reflexivity |].
    pose proof (len_nonneg headers). lia.
  - reflexivity.
  - reflexivity.
Qed.

(** The second testable property of the design: two headers, then silence
    for longer than the timeout; the pull returns those two. *)
Example idle_partial_batch :
  pullHeadersFromQueue
    [Send (headerAt 1); Send (headerAt 2);
     Select CaseHeader; Select CaseHeader; Expire; Select CaseTimer]
    newForwarder false =
  Some ([headerAt 1; headerAt 2], newForwarder, false, []).
Proof. reflexivity. Qed.

(** C6.  When the select takes [ctx.Done()], the pull returns in the same
    move exactly the headers it holds, possibly none, whatever the queue and
    the idle timer hold; the queue is left as it is and nothing more of the
    schedule is consumed.  The case is ready only once the context is
    cancelled. *)
Theorem C6_cancellation_returns_accumulated :
  forall (ls : list label) (f : Forwarder) (ctx : bool)
         (headers : list Header) (t : Timer),
    pullRun (Select CaseCtxDone :: ls) f true headers t =
      Some (headers, f, true, ls) /\
    pullRun (Cancel :: Select CaseCtxDone :: ls) f ctx headers t =
      Some (headers, f, true, ls) /\
    pullSelect CaseCtxDone f false headers t = None.
Proof.
  intros ls f ctx headers t. repeat split.
Qed.

(** ** The counter of processed headers *)

Lemma push_counter_bound (f : Forwarder) (headers : list Header) :
  0 <= processedHeaders f < headersBatchSize ->
  processedHeaders f + len headers <= max_int ->
  0 <= processedHeaders (fst (pushHeadersToChain f headers)) < headersBatchSize.
Proof.
  intros Hp Hmax. destruct headers as [| first rest]; [exact Hp |].
  assert (Hw : int_wrap (processedHeaders f + len (first :: rest)) =
               processedHeaders f + len (first :: rest)).
  { apply int_wrap_id. pose proof (len_nonneg (first :: rest)).
    unfold min_int. lia. }
  destruct (push_cases f first rest) as [[-> Hlt] | [-> _]];
    cbn [fst processedHeaders set_processedHeaders].
  - rewrite Hw in *. pose proof (len_nonneg (first :: rest)). lia.
  - unfold headersBatchSize. lia.
Qed.

(** ** Every world the forwarder reaches is well formed *)

Lemma afterPull_wellFormed (f f' : Forwarder) (headers : list Header)
    (evs : list event) (p : pc) :
  0 <= processedHeaders f < headersBatchSize ->
  len headers <= headersBatchSize ->
  afterPull f headers = (f', evs, p) ->
  0 <= processedHeaders f' < headersBatchSize /\
  errChan f' = errChan f /\
  hostChain f' = hostChain f /\
  headersQueue f' = headersQueue f /\
  (p = LoopSelect \/ exists t, p = SleepSelect t).
Proof.
  intros Hp Hlen Hafter. unfold afterPull in Hafter.
  destruct (len headers =? 0).
  - inversion Hafter; subst. auto 6.
  - destruct (pushHeadersToChain f headers) as [f1 evs1] eqn:Hpush.
    inversion Hafter; subst.
    pose proof (push_counter_bound f headers Hp) as Hb.
    rewrite Hpush in Hb. cbn [fst] in Hb.
    destruct headers as [| first rest].
    + cbn in Hpush. inversion Hpush; subst. eauto 7.
    + destruct (push_frame f first rest) as (Hh & Hq & He).
      rewrite Hpush in Hh, Hq, He. cbn [fst] in Hh, Hq, He.
      repeat split; try assumption; try apply Hb; eauto;
        unfold max_int, headersBatchSize in *; lia.
Qed.

Lemma resume_wellFormed (f f' : Forwarder) (o : pullOutcome)
    (evs : list event) (p : pc) :
  0 <= processedHeaders f < headersBatchSize ->
  match o with
  | PullContinue headers t => len headers < headersBatchSize /\ timerLive t
  | PullReturn r => len r <= headersBatchSize
  end ->
  resume f o = (f', evs, p) ->
  0 <= processedHeaders f' < headersBatchSize /\
  errChan f' = errChan f /\
  hostChain f' = hostChain f /\
  headersQueue f' = headersQueue f /\
  match p with
  | PullSelect headers t => len headers < headersBatchSize /\ timerLive t
  | _ => True
  end.
Proof.
  intros Hp Ho Hres. destruct o as [headers t | r]; cbn [resume] in Hres.
  - inversion Hres; subst. auto.
  - destruct (afterPull_wellFormed f f' r evs p Hp Ho Hres)
      as (H1 & H2 & H3 & H4 & [-> | [t ->]]); auto.
Qed.

(** [pullSelect] changes nothing of the forwarder but its queue. *)
Lemma pullSelect_frame (c : selectCase) (f f' : Forwarder) (ctx : bool)
    (headers : list Header) (t : Timer) (evs : list event) (o : pullOutcome) :
  pullSelect c f ctx headers t = Some (f', evs, o) ->
  processedHeaders f' = processedHeaders f /\
  errChan f' = errChan f /\
  hostChain f' = hostChain f.
Proof.
  intros Hsel. destruct c; cbn in Hsel; try discriminate.
  - destruct ctx; inversion Hsel; subst; auto.
  - destruct (headersQueue f) as [| header q]; [discriminate |].
    destruct (Stop t) as [stopped t1].
    destruct (if negb stopped then recvC t1 else Some t1); [| discriminate].
    inversion Hsel; subst. cbn. auto.
  - destruct (recvC t); [| discriminate].
    destruct (len headers >? 0); inversion Hsel; subst; auto.
Qed.

Lemma pullSelect_outcome (c : selectCase) (f f' : Forwarder) (ctx : bool)
    (headers : list Header) (t : Timer) (evs : list event) (o : pullOutcome) :
  len headers < headersBatchSize ->
  pullSelect c f ctx headers t = Some (f', evs, o) ->
  match o with
  | PullContinue headers' t' => len headers' < headersBatchSize /\ timerLive t'
  | PullReturn r => len r <= headersBatchSize
  end.
Proof.
  intros Hlt Hsel. destruct o as [headers' t' | r].
  - eapply pullSelect_continue; eassumption.
  - eapply pullSelect_return; eassumption.
Qed.

Lemma envStep_frame (l : label) (f f' : Forwarder) (c c' : bool)
    (t t' : Timer) :
  envStep l f c t = Some (f', c', t') ->
  processedHeaders f' = processedHeaders f /\
  errChan f' = errChan f /\
  hostChain f' = hostChain f /\
  headersQueue f' = headersQueue f ++ sends [l] /\
  (c = true -> c' = true) /\
  (timerLive t -> timerLive t').
Proof.
  intros Henv. destruct l as [h | | | s]; cbn in Henv.
  - destruct (len (headersQueue f) <? headersQueueSize); inversion Henv; subst.
    cbn. auto 7.
  - inversion Henv; subst. cbn. rewrite app_nil_r. auto 7.
  - destruct t; inversion Henv; subst; cbn; rewrite app_nil_r; auto 7.
  - discriminate.
Qed.

Lemma step_wellFormed (l : label) (w w' : World) :
  wellFormed w -> step l w = Some w' -> wellFormed w'.
Proof.
  intros (Hp & He & Hh & Hpc) Hstep. unfold wellFormed.
  destruct l as [h | | | c].
  1-3: env_move Hstep Henv;
       apply envStep_frame in Henv;
       destruct Henv as (H1 & H2 & H3 & _ & _ & Hlive);
       rewrite H1, H2, H3; repeat split; try tauto;
       destruct (at_pc w); cbn [withTimer pendingTimer] in *; tauto.
  cbn [step] in Hstep. unfold loopSelect in Hstep.
  destruct (at_pc w) as [| headers t | after |] eqn:Hat.
  - destruct c; try discriminate.
    + destruct (ctx w); inversion Hstep; subst; cbn; auto.
    + destruct (ctx w); [discriminate |].
      destruct (resume (fwd w) (forCond [] (NewTimer headerTimeout)))
        as [[f1 evs1] p1] eqn:Hres.
      inversion Hstep; subst; cbn [fwd at_pc].
      apply resume_wellFormed in Hres; [| exact Hp | cbn; split; [reflexivity | exact I]].
      destruct Hres as (H1 & H2 & H3 & _ & H5).
      rewrite H2, H3. auto.
  - destruct (pullSelect c (fwd w) (ctx w) headers t)
      as [[[f1 evs1] o] |] eqn:Hsel; [| discriminate].
    destruct (resume f1 o) as [[f2 evs2] p2] eqn:Hres.
    inversion Hstep; subst; cbn [fwd at_pc].
    pose proof (pullSelect_frame _ _ _ _ _ _ _ _ Hsel) as (F1 & F2 & F3).
    pose proof (pullSelect_outcome _ _ _ _ _ _ _ _ (proj1 Hpc) Hsel) as Ho.
    apply resume_wellFormed in Hres; [| rewrite F1; exact Hp | exact Ho].
    destruct Hres as (H1 & H2 & H3 & _ & H5).
    rewrite H2, H3, F2, F3. auto.
  - destruct c; try discriminate.
    + destruct (ctx w); inversion Hstep; subst; cbn; auto.
    + destruct (recvC after); inversion Hstep; subst; cbn; auto.
  - discriminate.
Qed.

Lemma run_wellFormed (ls : list label) :
  forall w w' : World, wellFormed w -> run ls w = Some w' -> wellFormed w'.
Proof.
  induction ls as [| l ls IH]; intros w w' Hwf Hrun; cbn [run] in Hrun.
  - inversion Hrun; subst. exact Hwf.
  - destruct (step l w) as [w1 |] eqn:Hstep; [| discriminate].
    eapply IH; [eapply step_wellFormed; eassumption | exact Hrun].
Qed.

Lemma RunForwarder_wellFormed : wellFormed RunForwarder.
Proof.
  unfold wellFormed. cbn. repeat split; try reflexivity; discriminate.
Qed.

(** C9.  [processedHeaders] is 0 when the forwarder is created; a call of
    [pushHeadersToChain] that starts with the counter in [0, 5) and a batch
    whose length fits an [int] ends with the counter in [0, 5); and so the
    counter is in [0, 5) in every world the running forwarder reaches, at
    each of its selects. *)
Theorem C9_processedHeaders_in_range :
  processedHeaders (fwd RunForwarder) = 0 /\
  (forall (f : Forwarder) (headers : list Header),
      0 <= processedHeaders f < 5 ->
      processedHeaders f + len headers <= max_int ->
      0 <= processedHeaders (fst (pushHeadersToChain f headers)) < 5) /\
  (forall (ls : list label) (w : World),
      run ls RunForwarder = Some w ->
      0 <= processedHeaders (fwd w) < 5).
Proof.
  split; [reflexivity |]. split.
  - exact push_counter_bound.
  - intros ls w Hrun.
    apply (run_wellFormed ls RunForwarder w RunForwarder_wellFormed Hrun).
Qed.

Lemma C9_processedHeaders_in_range_witness :
  processedHeaders (fwd RunForwarder) = 0 /\
  0 <= processedHeaders
         (fst (pushHeadersToChain (set_processedHeaders newForwarder 4)
                 [headerAt 1; headerAt 2; headerAt 3])) < 5 /\
  (exists w : World,
      run errorShutdownSchedule RunForwarder = Some w /\
      0 <= processedHeaders (fwd w) < 5).
Proof.
  destruct C9_processedHeaders_in_range as (H0 & Hpush & Hrun).
  split; [exact H0 |]. split.
  - apply Hpush; [cbn; lia | vm_compute; discriminate].
  - eexists. split.
    + vm_compute. reflexivity.
    + apply (Hrun errorShutdownSchedule). vm_compute. reflexivity.
Defined.

(** ** The orchestration loop *)

(** The rate-limiting select is entered by a move of the loop only from the
    pull phase, behind a push of the batch that was pulled. *)
Lemma afterPull_sleep (f f' : Forwarder) (headers : list Header)
    (evs : list event) (t : Timer) :
  afterPull f headers = (f', evs, SleepSelect t) ->
  headers <> [] /\
  f' = fst (pushHeadersToChain f headers) /\
  evs = EvPulled headers :: EvPush headers ::
          snd (pushHeadersToChain f headers) ++ [EvSleep forwarderSleepTime] /\
  t = NewTimer forwarderSleepTime.
Proof.
  unfold afterPull. intros Hafter.
  destruct (Z.eqb_spec (len headers) 0) as [Hz | Hnz]; [discriminate |].
  destruct (pushHeadersToChain f headers) as [f1 evs1].
  inversion Hafter; subst. cbn [fst snd].
  repeat split. intros ->. apply Hnz. reflexivity.
Qed.

Lemma resume_sleep (f f' : Forwarder) (o : pullOutcome) (evs : list event)
    (t : Timer) :
  resume f o = (f', evs, SleepSelect t) ->
  exists headers,
    o = PullReturn headers /\
    afterPull f headers = (f', evs, SleepSelect t).
Proof.
  destruct o as [headers t' | headers]; cbn [resume]; intros H.
  - discriminate.
  - exists headers. auto.
Qed.

(** The shape of an iteration behind a pull that returned some headers. *)
Lemma afterPull_cons (f : Forwarder) (first : Header) (rest : list Header) :
  afterPull f (first :: rest) =
    (fst (pushHeadersToChain f (first :: rest)),
     EvPulled (first :: rest) :: EvPush (first :: rest) ::
       snd (pushHeadersToChain f (first :: rest)) ++
       [EvSleep forwarderSleepTime],
     SleepSelect (NewTimer forwarderSleepTime)).
Proof.
  unfold afterPull.
  destruct (Z.eqb_spec (len (first :: rest)) 0) as [Hz | _].
  - apply len_zero in Hz. discriminate Hz.
  - destruct (pushHeadersToChain f (first :: rest)); reflexivity.
Qed.

(** X14.  One iteration of the loop, move by move.  A move of the pull
    phase that returns a batch with some headers pushes that batch and
    leaves the loop at the select on [time.After] of 45 seconds, whatever
    the push did: [pushHeadersToChain] returns nothing the loop could look
    at.  A move that returns the empty batch leaves the loop at its top
    select, which checks the context again, with no push and no sleep.
    From the top, with the context not cancelled, the loop enters the pull
    phase.  The select on [time.After] is entered by the loop only behind a
    push; it is left for the top of the loop when the 45 seconds have
    expired, or, expired or not, as soon as the context is cancelled; before
    either, the loop cannot move. *)
Theorem X14_loop_iteration :
  (forall (c : selectCase) (w : World) (headers : list Header) (t : Timer)
          (f1 : Forwarder) (evs1 : list event)
          (first : Header) (rest : list Header),
      at_pc w = PullSelect headers t ->
      pullSelect c (fwd w) (ctx w) headers t =
        Some (f1, evs1, PullReturn (first :: rest)) ->
      step (Select c) w =
        Some (mkWorld (fst (pushHeadersToChain f1 (first :: rest))) (ctx w)
                (SleepSelect (NewTimer forwarderSleepTime))
                (trace w ++ evs1 ++
                 EvPulled (first :: rest) :: EvPush (first :: rest) ::
                   snd (pushHeadersToChain f1 (first :: rest)) ++
                   [EvSleep forwarderSleepTime]))) /\
  (forall (c : selectCase) (w : World) (headers : list Header) (t : Timer)
          (f1 : Forwarder) (evs1 : list event),
      at_pc w = PullSelect headers t ->
      pullSelect c (fwd w) (ctx w) headers t =
        Some (f1, evs1, PullReturn []) ->
      step (Select c) w =
        Some (mkWorld f1 (ctx w) LoopSelect
                (trace w ++ evs1 ++ [EvPulled []]))) /\
  forwarderSleepTime = 45 * 1000000000 /\
  (forall w : World,
      at_pc w = LoopSelect -> ctx w = false ->
      step (Select CaseDefault) w =
        Some (mkWorld (fwd w) false (PullSelect [] (NewTimer headerTimeout))
                (trace w))) /\
  (forall f : Forwarder, afterPull f [] = (f, [EvPulled []], LoopSelect)) /\
  (forall (f : Forwarder) (first : Header) (rest : list Header),
      let headers := first :: rest in
      afterPull f headers =
        (fst (pushHeadersToChain f headers),
         EvPulled headers :: EvPush headers ::
           snd (pushHeadersToChain f headers) ++ [EvSleep forwarderSleepTime],
         SleepSelect (NewTimer forwarderSleepTime))) /\
  (forall (c : selectCase) (w w' : World) (t : Timer),
      step (Select c) w = Some w' ->
      at_pc w' = SleepSelect t ->
      exists (pre : list event) (headers : list Header),
        headers <> [] /\
        pushes pre = [] /\
        trace w' =
          trace w ++ pre ++ EvPulled headers :: EvPush headers ::
            snd (pushHeadersToChain (fwd w) headers) ++
            [EvSleep forwarderSleepTime] /\
        processedHeaders (fwd w') =
          processedHeaders (fst (pushHeadersToChain (fwd w) headers))) /\
  (forall (w : World) (after : Timer),
      at_pc w = SleepSelect after -> ctx w = true ->
      step (Select CaseCtxDone) w =
        Some (mkWorld (fwd w) true LoopSelect (trace w ++ [EvCtxDone]))) /\
  (forall w : World,
      at_pc w = SleepSelect Fired ->
      step (Select CaseAfter) w =
        Some (mkWorld (fwd w) (ctx w) LoopSelect (trace w ++ [EvWake]))) /\
  (forall (w : World) (d : Z) (c : selectCase),
      at_pc w = SleepSelect (Active d) -> ctx w = false ->
      step (Select c) w = None).
Proof.
  split.
  { intros c w headers t f1 evs1 first rest Hat Hsel.
    cbn [step]. unfold loopSelect. rewrite Hat, Hsel.
    cbn [resume]. rewrite afterPull_cons. reflexivity. }
  split.
  { intros c w headers t f1 evs1 Hat Hsel.
    cbn [step]. unfold loopSelect. rewrite Hat, Hsel. reflexivity. }
  split; [reflexivity |].
  split.
  { intros w Hat Hctx. cbn [step]. unfold loopSelect. rewrite Hat, Hctx.
    cbn. rewrite app_nil_r. reflexivity. }
  split; [reflexivity |].
  split.
  { intros f first rest headers. unfold afterPull.
    destruct (Z.eqb_spec (len headers) 0) as [Hz | _].
    - apply len_zero in Hz. discriminate Hz.
    - destruct (pushHeadersToChain f headers); reflexivity. }
  split.
  { intros c w w' t Hstep Hat'. cbn [step] in Hstep. unfold loopSelect in Hstep.
    destruct (at_pc w) as [| headers ht | after |] eqn:Hat.
    - destruct c; try discriminate.
      + destruct (ctx w); inversion Hstep; subst; discriminate.
      + destruct (ctx w); [discriminate |].
        cbn in Hstep. inversion Hstep; subst. discriminate.
    - destruct (pullSelect c (fwd w) (ctx w) headers ht)
        as [[[f1 evs1] o] |] eqn:Hsel; [| discriminate].
      destruct (resume f1 o) as [[f2 evs2] p2] eqn:Hres.
      inversion Hstep; subst. cbn [at_pc] in Hat'. subst p2.
      apply resume_sleep in Hres. destruct Hres as (r & -> & Hafter).
      apply afterPull_sleep in Hafter.
      destruct Hafter as (Hne & -> & -> & ->).
      pose proof (pullSelect_frame _ _ _ _ _ _ _ _ Hsel) as (F1 & F2 & F3).
      assert (Hsame : forall hs,
                 snd (pushHeadersToChain f1 hs) =
                   snd (pushHeadersToChain (fwd w) hs) /\
                 processedHeaders (fst (pushHeadersToChain f1 hs)) =
                   processedHeaders (fst (pushHeadersToChain (fwd w) hs))).
      { intros hs. unfold pushHeadersToChain. destruct hs as [| a hs'];
          [cbn; auto |]. rewrite F1.
        destruct (_ >=? headersBatchSize); cbn; auto. }
      exists evs1, r. cbn [trace fwd].
      destruct (Hsame r) as [Hs1 Hs2]. rewrite Hs1, Hs2.
      repeat split; try assumption.
      destruct c; cbn in Hsel; try discriminate.
      + destruct (ctx w); inversion Hsel; reflexivity.
      + destruct (headersQueue (fwd w)); [discriminate |].
        destruct (Stop ht) as [stopped t1].
        destruct (if negb stopped then recvC t1 else Some t1); [| discriminate].
        inversion Hsel; reflexivity.
      + destruct (recvC ht); [| discriminate].
        destruct (len headers >? 0); inversion Hsel; reflexivity.
    - destruct c; try discriminate.
      + destruct (ctx w); inversion Hstep; subst; discriminate.
      + destruct (recvC after); inversion Hstep; subst; discriminate.
    - discriminate. }
  split.
  { intros w after Hat Hctx. cbn [step]. unfold loopSelect.
    rewrite Hat, Hctx. reflexivity. }
  split.
  { intros w Hat. cbn [step]. unfold loopSelect. rewrite Hat. reflexivity. }
  intros w d c Hat Hctx. cbn [step]. unfold loopSelect. rewrite Hat, Hctx.
  destruct c; reflexivity.
Qed.

Lemma X14_loop_iteration_witness :
  step (Select CaseTimer)
    (mkWorld newForwarder false (PullSelect [headerAt 1] Fired) []) =
    Some (mkWorld (set_processedHeaders newForwarder 1) false
            (SleepSelect (Active (45 * 1000000000)))
            [EvTimerC; EvPulled [headerAt 1]; EvPush [headerAt 1];
             EvBranch NoDifficultyChange; EvSleep (45 * 1000000000)]) /\
  step (Select CaseCtxDone)
    (mkWorld newForwarder true (PullSelect [] (Active headerTimeout)) []) =
    Some (mkWorld newForwarder true LoopSelect [EvCtxDone; EvPulled []]) /\
  step (Select CaseDefault) RunForwarder =
    Some (mkWorld newForwarder false (PullSelect [] (NewTimer headerTimeout)) []) /\
  (exists (pre : list event) (headers : list Header),
      headers <> [] /\
      pushes pre = [] /\
      [EvTimerC; EvPulled [headerAt 1]; EvPush [headerAt 1];
       EvBranch NoDifficultyChange; EvSleep forwarderSleepTime] =
        [] ++ pre ++ EvPulled headers :: EvPush headers ::
          snd (pushHeadersToChain newForwarder headers) ++
          [EvSleep forwarderSleepTime] /\
      1 = processedHeaders (fst (pushHeadersToChain newForwarder headers))) /\
  step (Select CaseCtxDone)
    (mkWorld newForwarder true (SleepSelect (Active forwarderSleepTime)) []) =
    Some (mkWorld newForwarder true LoopSelect [EvCtxDone]) /\
  step (Select CaseAfter)
    (mkWorld newForwarder false (SleepSelect Fired) []) =
    Some (mkWorld newForwarder false LoopSelect [EvWake]) /\
  step (Select CaseAfter)
    (mkWorld newForwarder false (SleepSelect (Active forwarderSleepTime)) []) =
    None.
Proof.
  destruct X14_loop_iteration
    as (Hpush & Hempty & _ & Htop & _ & _ & Honly & Hcancel & Hwake & Hparked).
  split.
  { apply (Hpush CaseTimer
             (mkWorld newForwarder false (PullSelect [headerAt 1] Fired) [])
             [headerAt 1] Fired newForwarder [EvTimerC] (headerAt 1) []);
      reflexivity. }
  split.
  { apply (Hempty CaseCtxDone
             (mkWorld newForwarder true
                (PullSelect [] (Active headerTimeout)) [])
             [] (Active headerTimeout) newForwarder [EvCtxDone]);
      reflexivity. }
  split; [apply (Htop RunForwarder); reflexivity |].
  split.
  { apply (Honly CaseTimer
             (mkWorld newForwarder false (PullSelect [headerAt 1] Fired) [])
             (mkWorld (set_processedHeaders newForwarder 1) false
                (SleepSelect (NewTimer forwarderSleepTime))
                [EvTimerC; EvPulled [headerAt 1]; EvPush [headerAt 1];
                 EvBranch NoDifficultyChange; EvSleep forwarderSleepTime])
             (NewTimer forwarderSleepTime)); reflexivity. }
  split; [apply (Hcancel
                   (mkWorld newForwarder true
                      (SleepSelect (Active forwarderSleepTime)) [])
                   (Active forwarderSleepTime)); reflexivity |].
  split; [apply (Hwake (mkWorld newForwarder false (SleepSelect Fired) []));
          reflexivity |].
  apply (Hparked
           (mkWorld newForwarder false
              (SleepSelect (Active forwarderSleepTime)) [])
           forwarderSleepTime); reflexivity.
Defined.


(** ** After the cancellation *)

Lemma sends_cons (l : label) (ls : list label) :
  sends (l :: ls) = sends [l] ++ sends ls.
Proof. destruct l; reflexivity. Qed.

Lemma recvs_app (tr1 tr2 : list event) :
  recvs (tr1 ++ tr2) = recvs tr1 ++ recvs tr2.
Proof.
  induction tr1 as [| e tr1 IH]; [reflexivity |].
  destruct e; cbn; rewrite IH; reflexivity.
Qed.

Lemma pushes_app (tr1 tr2 : list event) :
  pushes (tr1 ++ tr2) = pushes tr1 ++ pushes tr2.
Proof.
  induction tr1 as [| e tr1 IH]; [reflexivity |].
  destruct e; cbn; rewrite IH; reflexivity.
Qed.

Lemma updates_app (tr1 tr2 : list event) :
  updates (tr1 ++ tr2) = updates tr1 ++ updates tr2.
Proof.
  induction tr1 as [| e tr1 IH]; [reflexivity |].
  destruct e; cbn; rewrite IH; reflexivity.
Qed.

Create Rewrite HintDb observe.
#[export] Hint Rewrite recvs_app pushes_app updates_app : observe.

(** The events of a push: no receipt, no push of another batch. *)
Lemma push_events (f : Forwarder) (headers : list Header) :
  recvs (snd (pushHeadersToChain f headers)) = [] /\
  pushes (snd (pushHeadersToChain f headers)) = [].
Proof.
  destruct headers as [| first rest]; [split; reflexivity |].
  destruct (push_cases f first rest) as [[-> _] | [-> _]]; split; reflexivity.
Qed.

(** Once the loop has seen the cancellation and is out of the pull phase,
    no move receives, pushes or hands over a best header, and the queue only
    grows by what the producers send. *)
Lemma step_cancelled (l : label) (w w' : World) :
  cancelled w ->
  step l w = Some w' ->
  cancelled w' /\
  headersQueue (fwd w') = headersQueue (fwd w) ++ sends [l] /\
  sameButQueue (fwd w) (fwd w') /\
  exists evs,
    trace w' = trace w ++ evs /\
    recvs evs = [] /\ pushes evs = [] /\ updates evs = [].
Proof.
  intros [Hctx Hpc] Hstep. unfold cancelled, sameButQueue.
  destruct l as [h | | | c].
  1-3: env_move Hstep Henv;
       apply envStep_frame in Henv;
       destruct Henv as (H1 & H2 & H3 & H4 & H5 & _);
       (split; [split; [auto | destruct (at_pc w); cbn; auto] |]);
       (split; [exact H4 |]); (split; [auto |]);
       exists []; rewrite app_nil_r; auto.
  cbn [step] in Hstep. unfold loopSelect in Hstep.
  destruct (at_pc w) as [| headers t | after |] eqn:Hat.
  - destruct c; try discriminate; rewrite Hctx in Hstep; [| discriminate].
    inversion Hstep; subst; cbn [fwd at_pc ctx trace].
    rewrite app_nil_r. repeat split; auto. eexists; repeat split.
  - contradiction.
  - destruct c; try discriminate.
    + rewrite Hctx in Hstep. inversion Hstep; subst; cbn [fwd at_pc ctx trace].
      rewrite app_nil_r. repeat split; auto. eexists; repeat split.
    + destruct (recvC after); inversion Hstep; subst; cbn [fwd at_pc ctx trace].
      rewrite app_nil_r. repeat split; auto. eexists; repeat split.
  - discriminate.
Qed.

Lemma run_cancelled (ls : list label) :
  forall w w' : World,
    cancelled w ->
    run ls w = Some w' ->
    cancelled w' /\
    headersQueue (fwd w') = headersQueue (fwd w) ++ sends ls /\
    sameButQueue (fwd w) (fwd w') /\
    exists evs,
      trace w' = trace w ++ evs /\
      recvs evs = [] /\ pushes evs = [] /\ updates evs = [].
Proof.
  induction ls as [| l ls IH]; intros w w' Hc Hrun; cbn [run] in Hrun.
  - inversion Hrun; subst. cbn [sends]. rewrite app_nil_r.
    unfold sameButQueue.
    repeat split; try apply Hc. exists []. rewrite app_nil_r. auto.
  - destruct (step l w) as [w1 |] eqn:Hstep; [| discriminate].
    destruct (step_cancelled l w w1 Hc Hstep)
      as (Hc1 & Hq1 & (Hp1 & Hh1 & He1) & evs1 & Ht1 & Hr1 & Hpu1 & Hu1).
    destruct (IH w1 w' Hc1 Hrun)
      as (Hc2 & Hq2 & (Hp2 & Hh2 & He2) & evs2 & Ht2 & Hr2 & Hpu2 & Hu2).
    split; [exact Hc2 |].
    split; [rewrite Hq2, Hq1, (sends_cons l ls), app_assoc; reflexivity |].
    split; [unfold sameButQueue; repeat split; congruence |].
    exists (evs1 ++ evs2).
    rewrite Ht2, Ht1, app_assoc.
    autorewrite with observe.
    rewrite Hr1, Hr2, Hpu1, Hpu2, Hu1, Hu2. auto.
Qed.

(** The move that takes [ctx.Done()]: it receives nothing, and it pushes
    only from the pull phase, the batch held there when it is not empty. *)
Lemma step_ctxDone (w w1 : World) :
  step (Select CaseCtxDone) w = Some w1 ->
  cancelled w1 /\
  headersQueue (fwd w1) = headersQueue (fwd w) /\
  exists evs,
    trace w1 = trace w ++ EvCtxDone :: evs /\
    recvs evs = [] /\
    pushes evs =
      match at_pc w with
      | PullSelect (first :: rest) _ => [first :: rest]
      | _ => []
      end.
Proof.
  intros Hstep. cbn [step] in Hstep. unfold loopSelect in Hstep.
  unfold cancelled.
  destruct (at_pc w) as [| headers t | after |] eqn:Hat.
  - destruct (ctx w) eqn:Hctx; inversion Hstep; subst; cbn.
    repeat split; auto. eexists; repeat split.
  - cbn [pullSelect] in Hstep.
    destruct (ctx w) eqn:Hctx; [| discriminate].
    cbn [resume] in Hstep.
    destruct (afterPull (fwd w) headers) as [[f2 evs2] p2] eqn:Hafter.
    inversion Hstep; subst; cbn [fwd at_pc ctx trace].
    destruct headers as [| first rest].
    + cbn in Hafter. inversion Hafter; subst. cbn.
      repeat split; auto. eexists; repeat split.
    + rewrite afterPull_cons in Hafter. inversion Hafter; subst.
      destruct (push_frame (fwd w) first rest) as (_ & Hq & _).
      destruct (push_events (fwd w) (first :: rest)) as [Hr Hpu].
      split; [cbn; auto |]. split; [exact Hq |].
      exists (EvPulled (first :: rest) :: EvPush (first :: rest) ::
                snd (pushHeadersToChain (fwd w) (first :: rest)) ++
                [EvSleep forwarderSleepTime]).
      split; [reflexivity |].
      cbn [recvs pushes]. autorewrite with observe. rewrite Hr, Hpu. auto.
  - destruct (ctx w) eqn:Hctx; inversion Hstep; subst; cbn.
    repeat split; auto. eexists; repeat split.
  - discriminate.
Qed.

(** C8, as the code has it.  The move by which the loop takes [ctx.Done()]
    receives nothing from the queue, and it pushes only when it is taken
    inside the pull phase with a batch that is not empty: that batch, once.
    From then on, whatever the schedule, the loop receives no header, makes
    no push and hands over no best header; the counter stays, and the queue
    is the queue of that moment followed by what the producers send
    afterwards: none of its headers is consumed. *)
Theorem C8_after_cancellation_is_observed :
  forall w w1 : World,
    step (Select CaseCtxDone) w = Some w1 ->
    headersQueue (fwd w1) = headersQueue (fwd w) /\
    (exists evs,
        trace w1 = trace w ++ EvCtxDone :: evs /\
        recvs evs = [] /\
        pushes evs =
          match at_pc w with
          | PullSelect (first :: rest) _ => [first :: rest]
          | _ => []
          end) /\
    (forall (ls : list label) (w2 : World),
        run ls w1 = Some w2 ->
        headersQueue (fwd w2) = headersQueue (fwd w1) ++ sends ls /\
        sameButQueue (fwd w1) (fwd w2) /\
        exists evs',
          trace w2 = trace w1 ++ evs' /\
          recvs evs' = [] /\ pushes evs' = [] /\ updates evs' = []).
Proof.
  intros w w1 Hstep.
  destruct (step_ctxDone w w1 Hstep) as (Hc & Hq & Hevs).
  split; [exact Hq |]. split; [exact Hevs |].
  intros ls w2 Hrun.
  destruct (run_cancelled ls w1 w2 Hc Hrun) as (_ & Hq2 & Hp2 & Hevs2).
  auto.
Qed.

(** Ten headers are in the queue when the loop, parked in the pull phase
    with nothing pulled, takes the cancellation; an eleventh is sent
    afterwards. *)
Lemma C8_after_cancellation_is_observed_witness :
  let w :=
    mkWorld (set_headersQueue newForwarder
               (map headerAt [0; 1; 2; 3; 4; 5; 6; 7; 8; 9]))
      true (PullSelect [] (NewTimer headerTimeout)) [] in
  exists w1 w2 : World,
    step (Select CaseCtxDone) w = Some w1 /\
    run [Send (headerAt 10); Select CaseCtxDone] w1 = Some w2 /\
    headersQueue (fwd w1) = headersQueue (fwd w) /\
    headersQueue (fwd w2) = headersQueue (fwd w1) ++ [headerAt 10] /\
    at_pc w2 = Returned /\
    recvs (trace w2) = [] /\ pushes (trace w2) = [].
Proof.
  intros w.
  pose (w1 := mkWorld (fwd w) true LoopSelect [EvCtxDone; EvPulled []]).
  pose (w2 := mkWorld (set_headersQueue (fwd w)
                         (headersQueue (fwd w) ++ [headerAt 10]))
                true Returned
                [EvCtxDone; EvPulled []; EvCtxDone; EvReturn]).
  assert (Hs : step (Select CaseCtxDone) w = Some w1) by reflexivity.
  assert (Hr : run [Send (headerAt 10); Select CaseCtxDone] w1 = Some w2)
    by reflexivity.
  destruct (C8_after_cancellation_is_observed w w1 Hs) as (Hq & _ & Hafter).
  destruct (Hafter _ w2 Hr) as (Hq2 & _ & _).
  exists w1, w2.
  split; [exact Hs |]. split; [exact Hr |]. split; [exact Hq |].
  split; [exact Hq2 |]. repeat split.
Defined.

(** C8, as the claim states it, fails.  Three headers are pushed after an
    idle timeout; the loop rests, pulls two more, and takes the cancellation
    inside the pull phase.  The two headers are pushed all the same, and the
    push, the counter reaching 5, hands the last of them to
    [updateBestHeader]: both after the cancellation was observed.  The header
    still in the queue stays there. *)
Lemma C8_push_after_cancellation :
  exists (w : World) (pre post : list event),
    run cancelDuringPullSchedule RunForwarder = Some w /\
    at_pc w = Returned /\
    headersQueue (fwd w) = [headerAt 6] /\
    trace w = pre ++ EvCtxDone :: post /\
    pushes post = [[headerAt 4; headerAt 5]] /\
    updates post = [headerAt 5] /\
    ~ quietAfterCtxDone (trace w).
Proof.
  pose (tr := traceOf cancelDuringPullSchedule).
  eexists. exists (firstn 11 tr), (skipn 12 tr).
  split; [by_running |].
  split; [reflexivity |]. split; [reflexivity |].
  split; [reflexivity |]. split; [reflexivity |]. split; [reflexivity |].
  intros Hquiet.
  destruct (Hquiet (firstn 11 tr) (skipn 12 tr) eq_refl) as [Hp _].
  vm_compute in Hp. discriminate Hp.
Qed.

(** Between the call of [cancelCtx()] and the move that takes
    [ctx.Done()], the select of the pull phase may still take the queue when
    a header is ready there. *)
Example signalled_not_yet_observed :
  run [Cancel; Select CaseHeader]
    (mkWorld (set_headersQueue newForwarder [headerAt 1; headerAt 2]) false
       (PullSelect [] (NewTimer headerTimeout)) []) =
  Some (mkWorld (set_headersQueue newForwarder [headerAt 2]) true
          (PullSelect [headerAt 1] (Active headerTimeout))
          [EvRecv (headerAt 1)]).
Proof. reflexivity. Qed.

(** ** The error channel *)

(** Nothing is ever written to the error channel, and the host chain handle
    is never called. *)
Lemma errChan_never_written (ls : list label) (w : World) :
  run ls RunForwarder = Some w ->
  ErrChan (fwd w) = [] /\ hostChain (fwd w) = [].
Proof.
  intros Hrun.
  destruct (run_wellFormed ls RunForwarder w RunForwarder_wellFormed Hrun)
    as (_ & He & Hh & _).
  auto.
Qed.

(** C2, on the input of [TestForwarder_PushingLoop_ErrorShutdown]: ten
    headers of heights 1 to 10 are sent and the loop pulls and pushes the
    first five.  The test waits for an error on [ErrChan()] and for the loop
    to stop with five headers left in the queue.  The push reports nothing,
    the error channel stays empty and the loop is not stopped but resting;
    after its rest it pulls and pushes the other five, the queue ends empty
    and the error channel is empty still. *)
Theorem C2_error_shutdown_test_gets_no_error :
  exists w w' : World,
    run errorShutdownSchedule RunForwarder = Some w /\
    pushes (trace w) = [map headerAt [1; 2; 3; 4; 5]] /\
    ErrChan (fwd w) = [] /\
    at_pc w = SleepSelect (NewTimer forwarderSleepTime) /\
    len (headersQueue (fwd w)) = 5 /\
    run errorShutdownContinued RunForwarder = Some w' /\
    pushes (trace w') =
      [map headerAt [1; 2; 3; 4; 5]; map headerAt [6; 7; 8; 9; 10]] /\
    ErrChan (fwd w') = [] /\
    len (headersQueue (fwd w')) = 0.
Proof.
  eexists. eexists.
  split; [by_running |].
  split; [reflexivity |]. split; [reflexivity |]. split; [reflexivity |].
  split; [reflexivity |].
  split; [by_running |].
  repeat split.
Qed.

(** * More of the forwarder *)

Lemma epoch_crossing (h n : Z) :
  0 <= h -> 0 <= n < difficultyEpochDuration ->
  h mod difficultyEpochDuration <> 0 ->
  (h mod difficultyEpochDuration > (h + n) mod difficultyEpochDuration <->
   exists k, h < k <= h + n /\ k mod difficultyEpochDuration = 0).
Proof.
  unfold difficultyEpochDuration. intros Hh Hn Hs. split.
  - intros Hgt. exists (2016 * (h / 2016 + 1)). split.
    + Z.div_mod_to_equations. nia.
    + rewrite Z.mul_comm. apply Z.mod_mul. lia.
  - intros (k & Hk & Hk0).
    Z.div_mod_to_equations. nia.
Qed.

Lemma contiguousFrom_bounds (headers : list Header) :
  forall (h : Z) (x : Header),
    contiguousFrom h headers -> In x headers ->
    h <= Height x < h + len headers.
Proof.
  induction headers as [| y l IH]; intros h x Hc Hin; [contradiction |].
  destruct Hc as [Hy Hc]. rewrite len_cons. pose proof (len_nonneg l).
  destruct Hin as [-> | Hin].
  - lia.
  - specialize (IH (h + 1) x Hc Hin). lia.
Qed.

Lemma contiguousFrom_covers (headers : list Header) :
  forall (h k : Z),
    contiguousFrom h headers -> h <= k < h + len headers ->
    exists x, In x headers /\ Height x = k.
Proof.
  induction headers as [| y l IH]; intros h k Hc Hk.
  - cbn in Hk. lia.
  - destruct Hc as [Hy Hc]. rewrite len_cons in Hk.
    destruct (Z.eq_dec k h) as [-> | Hne].
    + exists y. split; [left; reflexivity | exact Hy].
    + destruct (IH (h + 1) k Hc) as (x & Hin & Hx); [lia |].
      exists x. split; [right; exact Hin | exact Hx].
Qed.

Lemma contiguousFrom_last (headers : list Header) :
  forall (h : Z) (x0 d : Header),
    contiguousFrom h (x0 :: headers) ->
    Height (last (x0 :: headers) d) = h + len headers.
Proof.
  induction headers as [| y l IH]; intros h x0 d Hc.
  - destruct Hc as [Hx _]. cbn. lia.
  - destruct Hc as [Hx Hc]. rewrite len_cons.
    change (last (x0 :: y :: l) d) with (last (y :: l) d).
    rewrite (IH (h + 1) y d Hc). lia.
Qed.

(** X1.  For a batch of at most 2016 headers whose heights follow one
    another from a first height that is not negative, the arm
    [pushHeadersToChain] enters tells where the batch lies: the first arm
    exactly when the first header is on an epoch boundary; the spanning arm
    exactly when the first header is off the boundary and a later header of
    the batch is on one; the last arm exactly when no header of the batch is
    on a boundary. *)
Theorem X1_classification_of_contiguous_batch :
  forall (f : Forwarder) (first : Header) (rest : list Header),
    let headers := first :: rest in
    0 <= Height first ->
    contiguousFrom (Height first) headers ->
    len headers <= difficultyEpochDuration ->
    exists c calls,
      snd (pushHeadersToChain f headers) = EvBranch c :: calls /\
      (c = DifficultyChangeFirst <-> Height first mod 2016 = 0) /\
      (c = SpansDifficultyChange <->
         Height first mod 2016 <> 0 /\
         exists x, In x rest /\ Height x mod 2016 = 0) /\
      (c = NoDifficultyChange <->
         forall x, In x headers -> Height x mod 2016 <> 0).
Proof.
  intros f first rest headers Hfirst Hcont Hlen.
  set (s := go_rem (Height first) difficultyEpochDuration).
  set (e := go_rem (Height (last headers first)) difficultyEpochDuration).
  assert (Hlast : Height (last headers first) = Height first + len rest)
    by (apply contiguousFrom_last; exact Hcont).
  pose proof (len_nonneg rest) as Hrest.
  unfold headers in Hlen. rewrite len_cons in Hlen.
  assert (Hs : s = Height first mod 2016) by (apply go_rem_mod; exact Hfirst).
  assert (He : e = (Height first + len rest) mod 2016).
  { unfold e. rewrite go_rem_mod by lia. rewrite Hlast. reflexivity. }
  destruct Hcont as [_ Hcont].
  assert (Hcross : s <> 0 ->
            (s > e <-> exists x, In x rest /\ Height x mod 2016 = 0)).
  { intros Hs0. rewrite Hs, He in *.
    rewrite (epoch_crossing (Height first) (len rest) Hfirst);
      [| unfold difficultyEpochDuration in *; lia | exact Hs0].
    split.
    - intros (k & Hk & Hk0).
      destruct (contiguousFrom_covers rest (Height first + 1) k Hcont)
        as (x & Hin & Hx); [lia |].
      exists x. rewrite Hx. auto.
    - intros (x & Hin & Hx0).
      pose proof (contiguousFrom_bounds rest (Height first + 1) x Hcont Hin).
      exists (Height x). split; [lia | exact Hx0]. }
  destruct (classify_cases s e) as (H1 & H2 & H3).
  exists (classify s e).
  assert (Htr : exists calls,
             snd (pushHeadersToChain f headers) =
               EvBranch (classify s e) :: calls).
  { destruct (push_cases f first rest) as [[Hp _] | [Hp _]];
      unfold headers; rewrite Hp; cbn [snd]; eauto. }
  destruct Htr as [calls Htr]. exists calls.
  split; [exact Htr |].
  split; [rewrite H1, Hs; reflexivity |].
  split.
  - rewrite H2. split.
    + intros [Hs0 Hgt]. split; [congruence |]. apply Hcross; assumption.
    + intros [Hs0 Hex]. assert (s <> 0) by congruence.
      split; [assumption |]. apply Hcross; assumption.
  - rewrite H3. split.
    + intros [Hs0 Hle] x [<- | Hin]; [congruence |].
      intros Hx0. assert (s > e) by (apply Hcross; eauto). lia.
    + intros Hall. assert (Hs0 : s <> 0).
      { rewrite Hs. apply Hall. left. reflexivity. }
      split; [exact Hs0 |].
      destruct (Z_le_gt_dec s e) as [Hle | Hgt]; [exact Hle |].
      apply Hcross in Hgt; [| exact Hs0].
      destruct Hgt as (x & Hin & Hx0).
      exfalso. apply (Hall x); [right; exact Hin | exact Hx0].
Qed.

Lemma X1_classification_of_contiguous_batch_witness :
  exists c calls,
    snd (pushHeadersToChain newForwarder
           [headerAt 4030; headerAt 4031; headerAt 4032; headerAt 4033]) =
      EvBranch c :: calls /\
    c = SpansDifficultyChange.
Proof.
  destruct (X1_classification_of_contiguous_batch newForwarder (headerAt 4030)
              [headerAt 4031; headerAt 4032; headerAt 4033])
    as (c & calls & Htr & _ & Hspan & _).
  - cbn. discriminate.
  - cbn. repeat split.
  - vm_compute. discriminate.
  - exists c, calls. split; [exact Htr |].
    apply Hspan. split; [vm_compute; discriminate |].
    exists (headerAt 4032). split; [cbn; auto | reflexivity].
Defined.

(** The three ways a turn of the [for] of the pull phase can go. *)
Lemma pullSelect_cases (c : selectCase) (f f1 : Forwarder) (ctx : bool)
    (headers : list Header) (t : Timer) (evs : list event) (o : pullOutcome) :
  pullSelect c f ctx headers t = Some (f1, evs, o) ->
  (exists h q,
      c = CaseHeader /\ headersQueue f = h :: q /\
      f1 = set_headersQueue f q /\ evs = [EvRecv h] /\
      o = forCond (headers ++ [h]) (Active headerTimeout))
  \/
  (c = CaseTimer /\ t = Fired /\ f1 = f /\ evs = [EvTimerC] /\
   ((headers <> [] /\ o = PullReturn headers) \/
    (headers = [] /\ o = PullContinue [] (Active headerTimeout))))
  \/
  (c = CaseCtxDone /\ ctx = true /\ f1 = f /\ evs = [EvCtxDone] /\
   o = PullReturn headers).
Proof.
  intros Hsel. destruct c; cbn in Hsel; try discriminate.
  - destruct ctx; inversion Hsel; subst. right. right. auto 6.
  - destruct (headersQueue f) as [| h q] eqn:Hq; [discriminate |].
    left. exists h, q.
    destruct t; cbn in Hsel; inversion Hsel; subst; auto 6.
  - right. left.
    destruct t; cbn in Hsel; try discriminate.
    destruct headers as [| x l].
    + cbn in Hsel. inversion Hsel; subst. auto 8.
    + assert (Hpos : (len (x :: l) >? 0) = true).
      { rewrite len_cons. pose proof (len_nonneg l).
        destruct (Z.gtb_spec (len l + 1) 0); [reflexivity | lia]. }
      rewrite Hpos in Hsel. inversion Hsel; subst.
      repeat split. left. split; [discriminate | reflexivity].
Qed.

Lemma pullRun_conserves (ls : list label) :
  forall (f : Forwarder) (ctx : bool) (headers : list Header) (t : Timer)
         (r : list Header) (f' : Forwarder) (ctx' : bool) (rest : list label),
    pullRun ls f ctx headers t = Some (r, f', ctx', rest) ->
    exists used got,
      ls = used ++ rest /\
      r = headers ++ got /\
      got ++ headersQueue f' = headersQueue f ++ sends used /\
      sameButQueue f f' /\
      (ctx = true -> ctx' = true) /\
      (r = [] -> ctx' = true).
Proof.
  induction ls as [| l ls IH]; intros f ctx headers t r f' ctx' rest Hrun;
    [discriminate |].
  destruct l as [h | | | c]; cbn [pullRun] in Hrun.
  1-3: destruct (envStep _ f ctx t) as [[[f1 ctx1] t1] |] eqn:Henv;
       [| discriminate];
       apply envStep_frame in Henv;
       destruct Henv as (E1 & E2 & E3 & E4 & E5 & _);
       destruct (IH _ _ _ _ _ _ _ _ Hrun)
         as (used & got & Hls & Hr & Hq & (S1 & S2 & S3) & Hc & He);
       eexists (_ :: used), got;
       (split; [rewrite Hls; reflexivity |]); (split; [exact Hr |]);
       (split; [rewrite Hq, E4, (sends_cons _ used), app_assoc; reflexivity |]);
       (split; [unfold sameButQueue; repeat split; congruence |]);
       auto.
  destruct (pullSelect c f ctx headers t) as [[[f1 evs] o] |] eqn:Hsel;
    [| discriminate].
  apply pullSelect_cases in Hsel.
  destruct Hsel as [(h & q & -> & Hq & -> & -> & ->)
                   | [(-> & -> & -> & -> & [[Hne ->] | [-> ->]])
                     | (-> & -> & -> & -> & ->)]].
  - unfold forCond in Hrun.
    destruct (len (headers ++ [h]) <? headersBatchSize).
    + destruct (IH _ _ _ _ _ _ _ _ Hrun)
        as (used & got & Hls & Hr & Hq' & HS & Hc & He).
      exists (Select CaseHeader :: used), (h :: got).
      split; [rewrite Hls; reflexivity |].
      split; [rewrite Hr, <- app_assoc; reflexivity |].
      split; [cbn [sends app]; rewrite Hq; cbn [app]; f_equal; exact Hq' |].
      split; [exact HS |].
      split; [exact Hc |].
      intros Hnil. rewrite Hnil in Hr. destruct headers; discriminate Hr.
    + inversion Hrun; subst.
      exists [Select CaseHeader], [h].
      split; [reflexivity |]. split; [reflexivity |].
      split; [cbn [sends]; rewrite app_nil_r, Hq; reflexivity |].
      split; [repeat split |]. split; [auto |].
      intros Hnil. destruct headers; discriminate Hnil.
  - inversion Hrun; subst.
    exists [Select CaseTimer], [].
    cbn [sends app]. rewrite ?app_nil_r.
    repeat split; auto; intros ->; contradiction.
  - destruct (IH _ _ _ _ _ _ _ _ Hrun)
      as (used & got & Hls & Hr & Hq' & HS & Hc & He).
    exists (Select CaseTimer :: used), got.
    split; [rewrite Hls; reflexivity |]. auto 7.
  - inversion Hrun; subst.
    exists [Select CaseCtxDone], [].
    cbn [sends app]. rewrite ?app_nil_r.
    repeat split; auto.
Qed.

(** X2.  [pullHeadersFromQueue] loses, duplicates and reorders nothing: the
    batch it returns followed by the queue it leaves is the queue it found
    followed by what the producers sent while it ran; it touches nothing
    else of the forwarder. *)
Theorem X2_pull_conserves_the_queue :
  forall (ls : list label) (f : Forwarder) (ctx : bool)
         (r : list Header) (f' : Forwarder) (ctx' : bool) (rest : list label),
    pullHeadersFromQueue ls f ctx = Some (r, f', ctx', rest) ->
    exists used,
      ls = used ++ rest /\
      r ++ headersQueue f' = headersQueue f ++ sends used /\
      sameButQueue f f'.
Proof.
  intros ls f ctx r f' ctx' rest Hpull.
  change (pullHeadersFromQueue ls f ctx)
    with (pullRun ls f ctx [] (NewTimer headerTimeout)) in Hpull.
  destruct (pullRun_conserves _ _ _ _ _ _ _ _ _ Hpull)
    as (used & got & Hls & Hr & Hq & HS & _).
  exists used. cbn in Hr. subst r. auto.
Qed.

(** X3.  [pullHeadersFromQueue] returns the empty batch only when the
    context is cancelled; with the context not cancelled at its return, the
    batch has between 1 and 5 headers. *)
Theorem X3_empty_pull_means_cancelled :
  forall (ls : list label) (f : Forwarder) (ctx : bool)
         (r : list Header) (f' : Forwarder) (ctx' : bool) (rest : list label),
    pullHeadersFromQueue ls f ctx = Some (r, f', ctx', rest) ->
    (r = [] -> ctx' = true) /\ (ctx' = false -> 1 <= len r <= 5).
Proof.
  intros ls f ctx r f' ctx' rest Hpull.
  change (pullHeadersFromQueue ls f ctx)
    with (pullRun ls f ctx [] (NewTimer headerTimeout)) in Hpull.
  assert (Hle : len r <= headersBatchSize)
    by (eapply pullRun_at_most_batch; [| exact Hpull]; reflexivity).
  destruct (pullRun_conserves _ _ _ _ _ _ _ _ _ Hpull)
    as (_ & _ & _ & _ & _ & _ & _ & He).
  split; [exact He |].
  intros Hfalse. destruct r as [| x l].
  - rewrite He in Hfalse by reflexivity. discriminate.
  - rewrite len_cons in *. pose proof (len_nonneg l).
    unfold headersBatchSize in Hle. lia.
Qed.

Lemma afterPull_nonempty (f : Forwarder) (r : list Header) :
  r <> [] ->
  afterPull f r =
    (fst (pushHeadersToChain f r),
     EvPulled r :: EvPush r ::
       snd (pushHeadersToChain f r) ++ [EvSleep forwarderSleepTime],
     SleepSelect (NewTimer forwarderSleepTime)).
Proof.
  destruct r as [| x l]; [contradiction |]. intros _. apply afterPull_cons.
Qed.

(** A turn of the pull phase, by what it took off the queue. *)
Lemma pull_turn (c : selectCase) (f f1 : Forwarder) (ctx : bool)
    (headers : list Header) (t : Timer) (evs : list event) (o : pullOutcome) :
  pullSelect c f ctx headers t = Some (f1, evs, o) ->
  exists e got,
    evs = [e] /\ turnEvent e got ctx /\
    headersQueue f = got ++ headersQueue f1 /\
    sameButQueue f f1 /\
    (got = [] -> f1 = f) /\
    (o = PullReturn (headers ++ got) \/
     o = PullContinue (headers ++ got) (Active headerTimeout)).
Proof.
  intros Hsel. apply pullSelect_cases in Hsel. unfold turnEvent, sameButQueue.
  destruct Hsel as [(h & q & -> & Hq & -> & -> & ->)
                   | [(-> & -> & -> & -> & [[Hne ->] | [-> ->]])
                     | (-> & -> & -> & -> & ->)]].
  - exists (EvRecv h), [h]. split; [reflexivity |].
    split; [left; eauto |]. split; [exact Hq |].
    split; [cbn; repeat split |]. split; [discriminate |].
    unfold forCond.
    destruct (len (headers ++ [h]) <? headersBatchSize);
      [right; reflexivity | left; reflexivity].
  - exists EvTimerC, []. rewrite app_nil_r.
    split; [reflexivity |]. split; [right; left; auto |].
    split; [reflexivity |]. split; [repeat split |]. split; [reflexivity |].
    left; reflexivity.
  - exists EvTimerC, [].
    split; [reflexivity |]. split; [right; left; auto |].
    split; [reflexivity |]. split; [repeat split |]. split; [reflexivity |].
    right. reflexivity.
  - exists EvCtxDone, []. rewrite app_nil_r.
    split; [reflexivity |]. split; [right; right; auto |].
    split; [reflexivity |]. split; [repeat split |]. split; [reflexivity |].
    left; reflexivity.
Qed.

(** The moves of the loop goroutine, one by one. *)
Lemma select_cases (c : selectCase) (w w' : World) :
  step (Select c) w = Some w' ->
  ctx w' = ctx w /\
  ((at_pc w = LoopSelect /\ ctx w = true /\ at_pc w' = Returned /\
    fwd w' = fwd w /\ trace w' = trace w ++ [EvCtxDone; EvReturn])
   \/
   (at_pc w = LoopSelect /\ ctx w = false /\
    at_pc w' = PullSelect [] (NewTimer headerTimeout) /\
    fwd w' = fwd w /\ trace w' = trace w)
   \/
   (exists headers t e got,
       at_pc w = PullSelect headers t /\ turnEvent e got (ctx w) /\
       headersQueue (fwd w) = got ++ headersQueue (fwd w') /\
       sameButQueue (fwd w) (fwd w') /\
       at_pc w' = PullSelect (headers ++ got) (Active headerTimeout) /\
       trace w' = trace w ++ [e])
   \/
   (exists t e,
       at_pc w = PullSelect [] t /\ turnEvent e [] (ctx w) /\
       fwd w' = fwd w /\ at_pc w' = LoopSelect /\
       trace w' = trace w ++ [e; EvPulled []])
   \/
   (exists headers t e got f1,
       at_pc w = PullSelect headers t /\ turnEvent e got (ctx w) /\
       headersQueue (fwd w) = got ++ headersQueue f1 /\
       sameButQueue (fwd w) f1 /\
       headers ++ got <> [] /\
       fwd w' = fst (pushHeadersToChain f1 (headers ++ got)) /\
       at_pc w' = SleepSelect (NewTimer forwarderSleepTime) /\
       trace w' =
         trace w ++ e :: EvPulled (headers ++ got) :: EvPush (headers ++ got) ::
           snd (pushHeadersToChain f1 (headers ++ got)) ++
           [EvSleep forwarderSleepTime])
   \/
   (at_pc w = SleepSelect Fired /\ at_pc w' = LoopSelect /\
    fwd w' = fwd w /\ trace w' = trace w ++ [EvWake])
   \/
   (exists after,
       at_pc w = SleepSelect after /\ ctx w = true /\ at_pc w' = LoopSelect /\
       fwd w' = fwd w /\ trace w' = trace w ++ [EvCtxDone])).
Proof.
  intros Hstep. cbn [step] in Hstep. unfold loopSelect in Hstep.
  destruct (at_pc w) as [| headers t | after |] eqn:Hat.
  - destruct c; try discriminate; destruct (ctx w) eqn:Hctx; try discriminate.
    + inversion Hstep; subst. cbn. split; [auto |]. left. auto.
    + cbn in Hstep. inversion Hstep; subst. cbn. rewrite app_nil_r.
      split; [auto |]. right. left. auto.
  - destruct (pullSelect c (fwd w) (ctx w) headers t)
      as [[[f1 evs1] o] |] eqn:Hsel; [| discriminate].
    destruct (resume f1 o) as [[f2 evs2] p2] eqn:Hres.
    inversion Hstep; subst. cbn [ctx fwd at_pc trace].
    split; [reflexivity |].
    destruct (pull_turn _ _ _ _ _ _ _ _ Hsel)
      as (e & got & -> & Hturn & Hq & HS & Hsame & [-> | ->]).
    + cbn [resume] in Hres.
      destruct (headers ++ got) as [| x l] eqn:Hr.
      * cbn in Hres. inversion Hres; subst.
        apply app_eq_nil in Hr. destruct Hr as [-> ->].
        right. right. right. left. exists t, e.
        rewrite (Hsame eq_refl). auto 6.
      * rewrite afterPull_cons in Hres. inversion Hres; subst.
        right. right. right. right. left.
        exists headers, t, e, got, f1. rewrite Hr.
        repeat split; try assumption; try apply HS. discriminate.
    + cbn [resume] in Hres. inversion Hres; subst.
      right. right. left. exists headers, t, e, got.
      rewrite app_nil_r. auto 7.
  - destruct c; try discriminate.
    + destruct (ctx w) eqn:Hctx; [| discriminate].
      inversion Hstep; subst. cbn. split; [auto |].
      do 6 right. exists after. auto 6.
    + destruct after; cbn in Hstep; try discriminate.
      inversion Hstep; subst. cbn. split; [auto |].
      do 5 right. left. auto.
  - discriminate.
Qed.

Lemma run_invariant (P : World -> Prop) :
  (forall l w w', P w -> step l w = Some w' -> P w') ->
  forall ls w w', P w -> run ls w = Some w' -> P w'.
Proof.
  intros Hstep. induction ls as [| l ls IH]; intros w w' Hw Hrun;
    cbn [run] in Hrun.
  - inversion Hrun; subst. exact Hw.
  - destruct (step l w) as [w1 |] eqn:Hs; [| discriminate].
    eapply IH; [eapply Hstep; eassumption | exact Hrun].
Qed.

Lemma run_app (ls1 ls2 : list label) :
  forall w w' : World,
    run (ls1 ++ ls2) w = Some w' ->
    exists w1, run ls1 w = Some w1 /\ run ls2 w1 = Some w'.
Proof.
  induction ls1 as [| l ls1 IH]; intros w w' Hrun; cbn [app run] in *.
  - eauto.
  - destruct (step l w) as [w1 |]; [| discriminate]. auto.
Qed.

(** The moves of the environment. *)
Lemma env_cases (l : label) (w w' : World) :
  (forall c, l <> Select c) ->
  step l w = Some w' ->
  trace w' = trace w /\
  headersQueue (fwd w') = headersQueue (fwd w) ++ sends [l] /\
  sameButQueue (fwd w) (fwd w') /\
  held (at_pc w') = held (at_pc w) /\
  (ctx w = true -> ctx w' = true) /\
  (mayPush w' = true -> mayPush w = true) /\
  (at_pc w' = Returned <-> at_pc w = Returned).
Proof.
  intros Hl Hstep. destruct l as [h | | | c]; [| | | destruct (Hl c eq_refl)].
  all: env_move Hstep Henv;
       pose proof Henv as Hfr; apply envStep_frame in Hfr;
       destruct Hfr as (E1 & E2 & E3 & E4 & E5 & _);
       (split; [reflexivity |]); (split; [exact E4 |]);
       (split; [unfold sameButQueue; auto |]);
       (split; [destruct (at_pc w); reflexivity |]);
       (split; [exact E5 |]);
       (split; [| destruct (at_pc w); cbn; split; intros; congruence]).
  - cbn in Henv. destruct (_ <? _); inversion Henv; subst.
    unfold mayPush. cbn. destruct (at_pc w); auto.
  - cbn in Henv. inversion Henv; subst.
    unfold mayPush. cbn. destruct (at_pc w); auto. discriminate.
  - cbn in Henv. destruct (pendingTimer (at_pc w)); inversion Henv; subst.
    unfold mayPush. cbn. destruct (at_pc w); auto.
Qed.

Lemma turnEvent_obs (e : event) (got : list Header) (c : bool) :
  turnEvent e got c ->
  recvs [e] = got /\ pushes [e] = [] /\ updates [e] = [] /\
  (forall a tr, restScan a (e :: tr) = restScan a tr) /\
  len got <= 1.
Proof.
  intros [(h & -> & ->) | [[-> ->] | (-> & -> & _)]]; cbn; repeat split; lia.
Qed.

Lemma restScan_app (tr1 tr2 : list event) :
  forall a : bool,
    restScan a (tr1 ++ tr2) =
      match restScan a tr1 with
      | Some a' => restScan a' tr2
      | None => None
      end.
Proof.
  induction tr1 as [| e tr1 IH]; intros a; [reflexivity |].
  destruct e; cbn [app restScan]; try apply IH.
  destruct a; [apply IH | reflexivity].
Qed.

Lemma pushed_app (tr1 tr2 : list event) :
  pushed (tr1 ++ tr2) = pushed tr1 ++ pushed tr2.
Proof. unfold pushed. rewrite pushes_app. apply concat_app. Qed.

(** What a push of a batch that is not empty logs and leaves. *)
Lemma push_obs (f : Forwarder) (r : list Header) :
  r <> [] ->
  recvs (snd (pushHeadersToChain f r)) = [] /\
  pushes (snd (pushHeadersToChain f r)) = [] /\
  (forall a tr,
      restScan a (snd (pushHeadersToChain f r) ++ tr) = restScan a tr) /\
  headersQueue (fst (pushHeadersToChain f r)) = headersQueue f /\
  hostChain (fst (pushHeadersToChain f r)) = hostChain f /\
  errChan (fst (pushHeadersToChain f r)) = errChan f.
Proof.
  destruct r as [| first rest]; [contradiction |]. intros _.
  destruct (push_frame f first rest) as (Hh & Hq & He).
  destruct (push_cases f first rest) as [[Hp _] | [Hp _]];
    rewrite Hp in *; cbn [fst snd] in *; repeat split; auto.
Qed.

Lemma push_counter (f : Forwarder) (r : list Header) :
  r <> [] ->
  0 <= processedHeaders f < headersBatchSize ->
  len r <= headersBatchSize ->
  (processedHeaders (fst (pushHeadersToChain f r)) = processedHeaders f + len r /\
   updates (snd (pushHeadersToChain f r)) = [] /\
   processedHeaders f + len r < headersBatchSize)
  \/
  (processedHeaders (fst (pushHeadersToChain f r)) = 0 /\
   (exists h, updates (snd (pushHeadersToChain f r)) = [h]) /\
   headersBatchSize <= processedHeaders f + len r).
Proof.
  destruct r as [| first rest]; [contradiction |]. intros _ Hp Hlen.
  assert (Hw : int_wrap (processedHeaders f + len (first :: rest)) =
               processedHeaders f + len (first :: rest)).
  { apply int_wrap_id. pose proof (len_nonneg (first :: rest)).
    unfold min_int, max_int, headersBatchSize in *. lia. }
  destruct (push_cases f first rest) as [[Hpush Hlt] | [Hpush Hge]];
    rewrite Hpush, Hw in *; cbn [fst snd processedHeaders set_processedHeaders updates].
  - left. auto.
  - right. eauto.
Qed.

(** One move: what leaves the queue is received, and what is received is
    held or pushed, in order. *)
Lemma step_conserves (l : label) (w w' : World) :
  step l w = Some w' ->
  exists evs,
    trace w' = trace w ++ evs /\
    headersQueue (fwd w) ++ sends [l] = recvs evs ++ headersQueue (fwd w') /\
    held (at_pc w) ++ recvs evs = pushed evs ++ held (at_pc w').
Proof.
  intros Hstep. destruct l as [h | | | c].
  1-3: apply env_cases in Hstep; [| discriminate];
       destruct Hstep as (Ht & Hq & _ & Hh & _);
       exists []; rewrite app_nil_r, Hq, Hh, Ht; cbn; rewrite ?app_nil_r; auto.
  apply select_cases in Hstep. cbn [sends]. rewrite app_nil_r.
  destruct Hstep as
    (_ & [(Hat & _ & Hat' & Hf & Htr)
         | [(Hat & _ & Hat' & Hf & Htr)
           | [(hs & t & e & got & Hat & Hturn & Hq & _ & Hat' & Htr)
             | [(t & e & Hat & Hturn & Hf & Hat' & Htr)
               | [(hs & t & e & got & f1 & Hat & Hturn & Hq & _ & Hne & Hf & Hat' & Htr)
                 | [(Hat & Hat' & Hf & Htr)
                   | (after & Hat & _ & Hat' & Hf & Htr)]]]]]]);
    rewrite Hat, Hat'; cbn [held].
  - exists [EvCtxDone; EvReturn]. rewrite Hf. auto.
  - exists []. rewrite Hf, app_nil_r. auto.
  - destruct (turnEvent_obs _ _ _ Hturn) as (Hr & Hp & _).
    exists [e]. unfold pushed. rewrite Hr, Hp. auto.
  - destruct (turnEvent_obs _ _ _ Hturn) as (Hr & Hp & _).
    exists [e; EvPulled []]. rewrite Hf.
    change (recvs [e; EvPulled []]) with (recvs ([e] ++ [EvPulled []])).
    change (pushed [e; EvPulled []]) with (pushed ([e] ++ [EvPulled []])).
    rewrite recvs_app, pushed_app. unfold pushed. rewrite Hr, Hp. auto.
  - destruct (turnEvent_obs _ _ _ Hturn) as (Hr & Hp & _).
    destruct (push_obs f1 (hs ++ got) Hne) as (Pr & Pp & _ & Pq & _).
    eexists. split; [exact Htr |].
    match goal with
    | |- context [recvs (e :: ?tl)] =>
        change (recvs (e :: tl)) with (recvs ([e] ++ tl));
        change (pushed (e :: tl)) with (pushed ([e] ++ tl))
    end.
    rewrite recvs_app, pushed_app. unfold pushed at 1. rewrite Hr, Hp.
    cbn [recvs pushed pushes concat app].
    unfold pushed. cbn [pushes]. rewrite recvs_app, pushes_app, Pr, Pp.
    cbn. rewrite Hf, Pq, !app_nil_r. auto.
  - exists [EvWake]. rewrite Hf. auto.
  - exists [EvCtxDone]. rewrite Hf. auto.
Qed.

Lemma run_conserves (ls : list label) :
  forall w w' : World,
    run ls w = Some w' ->
    exists evs,
      trace w' = trace w ++ evs /\
      headersQueue (fwd w) ++ sends ls = recvs evs ++ headersQueue (fwd w') /\
      held (at_pc w) ++ recvs evs = pushed evs ++ held (at_pc w').
Proof.
  induction ls as [| l ls IH]; intros w w' Hrun; cbn [run] in Hrun.
  - inversion Hrun; subst. exists []. cbn. rewrite !app_nil_r. auto.
  - destruct (step l w) as [w1 |] eqn:Hstep; [| discriminate].
    destruct (step_conserves l w w1 Hstep) as (evs1 & Ht1 & Hq1 & Hh1).
    destruct (IH w1 w' Hrun) as (evs2 & Ht2 & Hq2 & Hh2).
    exists (evs1 ++ evs2).
    rewrite recvs_app, pushed_app.
    split; [rewrite Ht2, Ht1, app_assoc; reflexivity |]. split.
    + rewrite (sends_cons l ls), app_assoc, Hq1, <- !app_assoc, Hq2.
      reflexivity.
    + rewrite app_assoc, Hh1, <- !app_assoc, Hh2. reflexivity.
Qed.

(** X5.  At any moment of any run, the headers sent to the queue are, in the
    order they were sent, the headers pushed so far, then the headers the
    pull phase holds, then the headers still in the queue: none is lost,
    duplicated or pushed out of order. *)
Theorem X5_headers_are_pushed_in_the_order_sent :
  forall (ls : list label) (w : World),
    run ls RunForwarder = Some w ->
    sends ls =
      pushed (trace w) ++ held (at_pc w) ++ headersQueue (fwd w).
Proof.
  intros ls w Hrun.
  destruct (run_conserves ls RunForwarder w Hrun) as (evs & Ht & Hq & Hh).
  cbn in Ht, Hq, Hh. subst evs. rewrite Hq, Hh, app_assoc. reflexivity.
Qed.

(** The batch a move pushes, when it pushes: the headers held plus at most
    one just received, between 1 and 5 of them. *)
Lemma pushed_batch_size (headers got : list Header) (e : event) (c : bool) :
  len headers < headersBatchSize ->
  turnEvent e got c ->
  headers ++ got <> [] ->
  1 <= len (headers ++ got) <= headersBatchSize.
Proof.
  intros Hlt Hturn Hne.
  destruct (turnEvent_obs _ _ _ Hturn) as (_ & _ & _ & _ & Hgot).
  rewrite len_app. pose proof (len_nonneg headers). pose proof (len_nonneg got).
  split; [| unfold headersBatchSize in *; lia].
  destruct (headers ++ got) as [| x l] eqn:Hr; [contradiction |].
  assert (Hl : len (headers ++ got) = len (x :: l)) by (rewrite Hr; reflexivity).
  rewrite len_app, len_cons in Hl. pose proof (len_nonneg l). lia.
Qed.


Lemma step_batchesSized (l : label) (w w' : World) :
  batchesSized w -> step l w = Some w' -> batchesSized w'.
Proof.
  intros [Hwf Hall] Hstep. split; [eapply step_wellFormed; eassumption |].
  destruct l as [h | | | c].
  1-3: apply env_cases in Hstep; [| discriminate];
       destruct Hstep as (-> & _); exact Hall.
  apply select_cases in Hstep.
  destruct Hstep as
    (_ & [(Hat & _ & Hat' & Hf & Htr)
         | [(Hat & _ & Hat' & Hf & Htr)
           | [(hs & t & e & got & Hat & Hturn & Hq & _ & Hat' & Htr)
             | [(t & e & Hat & Hturn & Hf & Hat' & Htr)
               | [(hs & t & e & got & f1 & Hat & Hturn & Hq & _ & Hne & Hf & Hat' & Htr)
                 | [(Hat & Hat' & Hf & Htr)
                   | (after & Hat & _ & Hat' & Hf & Htr)]]]]]]);
    rewrite Htr; try exact Hall; rewrite pushes_app; apply Forall_app;
    (split; [exact Hall |]); try (cbn; constructor).
  - destruct (turnEvent_obs _ _ _ Hturn) as (_ & Hp & _). rewrite Hp. constructor.
  - destruct (turnEvent_obs _ _ _ Hturn) as (_ & Hp & _).
    change (pushes [e; EvPulled []]) with (pushes ([e] ++ [EvPulled []])).
    rewrite pushes_app, Hp. constructor.
  - destruct (turnEvent_obs _ _ _ Hturn) as (_ & Hp & _).
    destruct (push_obs f1 (hs ++ got) Hne) as (_ & Pp & _).
    match goal with
    | |- context [pushes (e :: ?tl)] =>
        change (pushes (e :: tl)) with (pushes ([e] ++ tl))
    end.
    rewrite pushes_app, Hp. cbn [app pushes]. rewrite pushes_app, Pp. cbn.
    constructor; [| constructor].
    destruct Hwf as (_ & _ & _ & Hpc). rewrite Hat in Hpc.
    eapply pushed_batch_size; [apply Hpc | exact Hturn | exact Hne].
Qed.

(** X6.  Every batch the loop hands to [pushHeadersToChain] has between 1
    and 5 headers. *)
Theorem X6_pushed_batches_have_one_to_five_headers :
  forall (ls : list label) (w : World),
    run ls RunForwarder = Some w ->
    Forall (fun b => 1 <= len b <= 5) (pushes (trace w)).
Proof.
  intros ls w Hrun.
  apply (run_invariant batchesSized step_batchesSized ls RunForwarder w);
    [| exact Hrun].
  split; [exact RunForwarder_wellFormed | constructor].
Qed.

(** ** The rest between two pushes *)


Lemma step_restedSoFar (l : label) (w w' : World) :
  restedSoFar w -> step l w = Some w' -> restedSoFar w'.
Proof.
  intros (a & Hscan & Hmay) Hstep. unfold restedSoFar.
  destruct l as [h | | | c].
  1-3: apply env_cases in Hstep; [| discriminate];
       destruct Hstep as (-> & _ & _ & _ & _ & Hm & _);
       exists a; auto.
  apply select_cases in Hstep.
  destruct Hstep as
    (Hctx & [(Hat & Hc & Hat' & Hf & Htr)
         | [(Hat & Hc & Hat' & Hf & Htr)
           | [(hs & t & e & got & Hat & Hturn & Hq & _ & Hat' & Htr)
             | [(t & e & Hat & Hturn & Hf & Hat' & Htr)
               | [(hs & t & e & got & f1 & Hat & Hturn & Hq & _ & Hne & Hf & Hat' & Htr)
                 | [(Hat & Hat' & Hf & Htr)
                   | (after & Hat & Hc & Hat' & Hf & Htr)]]]]]]);
    rewrite Htr; unfold mayPush in *; rewrite Hat in Hmay; rewrite Hat', ?Hctx;
    try rewrite restScan_app, Hscan.
  - exists a. cbn. split; [reflexivity | discriminate].
  - exists a. rewrite Hc in Hmay. auto.
  - destruct (turnEvent_obs _ _ _ Hturn) as (_ & _ & _ & Hq' & _).
    exists a. rewrite Hq'. cbn. auto.
  - destruct (turnEvent_obs _ _ _ Hturn) as (_ & _ & _ & Hq' & _).
    exists a. rewrite Hq'. cbn. split; [reflexivity |]. auto.
  - destruct (turnEvent_obs _ _ _ Hturn) as (_ & _ & _ & Hq' & _).
    destruct (push_obs f1 (hs ++ got) Hne) as (_ & _ & Pq & _).
    exists false. rewrite Hq'. cbn [restScan]. rewrite (Hmay eq_refl).
    rewrite Pq. cbn. split; [reflexivity | discriminate].
  - exists true. cbn. auto.
  - exists a. cbn. rewrite Hc. cbn. split; [reflexivity | discriminate].
Qed.

Lemma restScan_asleep (b : list event) :
  forall (h2 : list Header) (c : list event) (a : bool),
    restScan false (b ++ EvPush h2 :: c) = Some a -> In EvWake b.
Proof.
  induction b as [| e b IH]; intros h2 c a Hscan; [discriminate |].
  destruct e; cbn [app restScan] in Hscan;
    try (right; eapply IH; exact Hscan).
  - discriminate.
  - left. reflexivity.
Qed.

Lemma restScan_between (pre : list event) :
  forall (h1 h2 : list Header) (b c : list event) (a0 a : bool),
    restScan a0 (pre ++ EvPush h1 :: b ++ EvPush h2 :: c) = Some a ->
    In EvWake b.
Proof.
  intros h1 h2 b c a0 a Hscan. rewrite restScan_app in Hscan.
  destruct (restScan a0 pre) as [a1 |]; [| discriminate].
  cbn [restScan] in Hscan. destruct a1; [| discriminate].
  eapply restScan_asleep. exact Hscan.
Qed.

(** X7.  Between any two pushes of a run the rest has run its full time: the
    loop took [case <-time.After(forwarderSleepTime)] in between. *)
Theorem X7_two_pushes_are_a_rest_apart :
  forall (ls : list label) (w : World),
    run ls RunForwarder = Some w ->
    forall (pre b c : list event) (h1 h2 : list Header),
      trace w = pre ++ EvPush h1 :: b ++ EvPush h2 :: c ->
      In EvWake b.
Proof.
  intros ls w Hrun pre b c h1 h2 Htr.
  assert (Hr : restedSoFar w).
  { apply (run_invariant restedSoFar step_restedSoFar ls RunForwarder w);
      [| exact Hrun].
    exists true. cbn. auto. }
  destruct Hr as (a & Hscan & _). rewrite Htr in Hscan.
  eapply restScan_between. exact Hscan.
Qed.

Lemma turn_pushed (e : event) (got : list Header) (c : bool) :
  turnEvent e got c -> pushed [e] = [] /\ updates [e] = [].
Proof.
  intros Hturn. destruct (turnEvent_obs _ _ _ Hturn) as (_ & Hp & Hu & _).
  unfold pushed. rewrite Hp. auto.
Qed.

(** What the move that pushes logs. *)
Lemma push_move_obs (e : event) (got r : list Header) (c : bool)
    (f : Forwarder) :
  turnEvent e got c ->
  r <> [] ->
  pushed (e :: EvPulled r :: EvPush r ::
            snd (pushHeadersToChain f r) ++ [EvSleep forwarderSleepTime]) = r /\
  updates (e :: EvPulled r :: EvPush r ::
             snd (pushHeadersToChain f r) ++ [EvSleep forwarderSleepTime]) =
    updates (snd (pushHeadersToChain f r)).
Proof.
  intros Hturn Hne.
  destruct (turn_pushed _ _ _ Hturn) as [Hp Hu].
  destruct (push_obs f r Hne) as (_ & Pp & _).
  split.
  - change (pushed (e :: EvPulled r :: EvPush r ::
              snd (pushHeadersToChain f r) ++ [EvSleep forwarderSleepTime]))
      with (pushed ([e] ++ EvPulled r :: EvPush r ::
              snd (pushHeadersToChain f r) ++ [EvSleep forwarderSleepTime])).
    rewrite pushed_app, Hp. unfold pushed. cbn [app pushes].
    rewrite pushes_app, Pp. cbn. apply app_nil_r.
  - change (updates (e :: EvPulled r :: EvPush r ::
              snd (pushHeadersToChain f r) ++ [EvSleep forwarderSleepTime]))
      with (updates ([e] ++ EvPulled r :: EvPush r ::
              snd (pushHeadersToChain f r) ++ [EvSleep forwarderSleepTime])).
    rewrite updates_app, Hu. cbn [app updates].
    rewrite updates_app. cbn. apply app_nil_r.
Qed.


Lemma step_accounted (l : label) (w w' : World) :
  accounted w -> step l w = Some w' -> accounted w'.
Proof.
  intros [Hwf Hacc] Hstep. split; [eapply step_wellFormed; eassumption |].
  destruct l as [h | | | c].
  1-3: apply env_cases in Hstep; [| discriminate];
       destruct Hstep as (-> & _ & (-> & _) & _); exact Hacc.
  apply select_cases in Hstep.
  destruct Hstep as
    (_ & [(Hat & _ & Hat' & Hf & Htr)
         | [(Hat & _ & Hat' & Hf & Htr)
           | [(hs & t & e & got & Hat & Hturn & Hq & (HS & _) & Hat' & Htr)
             | [(t & e & Hat & Hturn & Hf & Hat' & Htr)
               | [(hs & t & e & got & f1 & Hat & Hturn & Hq & (HS & _) & Hne & Hf & Hat' & Htr)
                 | [(Hat & Hat' & Hf & Htr)
                   | (after & Hat & _ & Hat' & Hf & Htr)]]]]]]);
    rewrite Htr, ?Hf, ?HS; try exact Hacc;
    rewrite updates_app, pushed_app, !len_app.
  - change (pushed [EvCtxDone; EvReturn]) with (@nil Header).
    change (updates [EvCtxDone; EvReturn]) with (@nil Header).
    change (len (@nil Header)) with 0. lia.
  - destruct (turn_pushed _ _ _ Hturn) as [-> ->].
    change (len (@nil Header)) with 0. lia.
  - change [e; EvPulled []] with ([e] ++ [EvPulled []]).
    rewrite updates_app, pushed_app.
    destruct (turn_pushed _ _ _ Hturn) as [-> ->].
    change (pushed [EvPulled []]) with (@nil Header).
    change (updates [EvPulled []]) with (@nil Header).
    cbn [app]. change (len (@nil Header)) with 0. lia.
  - destruct Hwf as (Hcnt & _ & _ & Hpc). rewrite Hat in Hpc.
    pose proof (pushed_batch_size hs got e (ctx w) (proj1 Hpc) Hturn Hne)
      as Hsize.
    assert (Hcnt1 : 0 <= processedHeaders f1 < headersBatchSize)
      by (rewrite HS; exact Hcnt).
    destruct (push_move_obs e got (hs ++ got) (ctx w) f1 Hturn Hne)
      as [-> ->].
    unfold headersBatchSize in *.
    destruct (push_counter f1 (hs ++ got) Hne Hcnt1 (proj2 Hsize))
      as [(-> & -> & Hlt) | (-> & (h & ->) & Hge)];
      rewrite HS in *;
      [change (len (@nil Header)) with 0 | change (len [h]) with 1];
      unfold headersBatchSize in *; lia.
  - change (pushed [EvWake]) with (@nil Header).
    change (updates [EvWake]) with (@nil Header).
    change (len (@nil Header)) with 0. lia.
  - change (pushed [EvCtxDone]) with (@nil Header).
    change (updates [EvCtxDone]) with (@nil Header).
    change (len (@nil Header)) with 0. lia.
Qed.

(** X8.  At any moment of any run, with [u] calls of [updateBestHeader], [n]
    headers pushed and the counter at [p]: [5 u + p <= n <= 9 u + p].  A best
    header is handed over at least every 9 and at most every 5 pushed
    headers. *)
Theorem X8_best_header_every_five_to_nine_headers :
  forall (ls : list label) (w : World),
    run ls RunForwarder = Some w ->
    5 * len (updates (trace w)) + processedHeaders (fwd w)
      <= len (pushed (trace w))
      <= 9 * len (updates (trace w)) + processedHeaders (fwd w).
Proof.
  intros ls w Hrun.
  apply (run_invariant accounted step_accounted ls RunForwarder w);
    [| exact Hrun].
  split; [exact RunForwarder_wellFormed | cbn; lia].
Qed.

(** X4.  Wherever the running forwarder is parked in the pull phase with a
    header in the queue, taking the header goes through: stopping the idle
    timer, or draining [headerTimer.C] when it has already expired, never
    blocks.  The header is the head of the queue and the queue loses just
    it. *)
Theorem X4_receive_never_blocks_on_the_timer :
  forall (ls : list label) (w : World) (headers : list Header) (t : Timer)
         (h : Header) (q : list Header),
    run ls RunForwarder = Some w ->
    at_pc w = PullSelect headers t ->
    headersQueue (fwd w) = h :: q ->
    exists w',
      step (Select CaseHeader) w = Some w' /\
      headersQueue (fwd w') = q /\
      recvs (trace w') = recvs (trace w) ++ [h].
Proof.
  intros ls w headers t h q Hrun Hat Hq.
  pose proof (run_wellFormed ls RunForwarder w RunForwarder_wellFormed Hrun)
    as (_ & _ & _ & Hpc).
  rewrite Hat in Hpc. destruct Hpc as [_ Hlive].
  assert (Hsel : pullSelect CaseHeader (fwd w) (ctx w) headers t =
                 Some (set_headersQueue (fwd w) q, [EvRecv h],
                       forCond (headers ++ [h]) (Active headerTimeout))).
  { cbn [pullSelect]. rewrite Hq.
    destruct t; [reflexivity | reflexivity | contradiction]. }
  cbn [step]. unfold loopSelect. rewrite Hat, Hsel.
  unfold forCond. destruct (len (headers ++ [h]) <? headersBatchSize).
  - cbn [resume]. eexists. split; [reflexivity |]. cbn [fwd trace].
    split; [reflexivity |]. rewrite recvs_app. reflexivity.
  - cbn [resume]. rewrite afterPull_nonempty
      by (destruct headers; discriminate).
    eexists. split; [reflexivity |]. cbn [fwd trace].
    destruct (push_obs (set_headersQueue (fwd w) q) (headers ++ [h]))
      as (Pr & _ & _ & Pq & _); [destruct headers; discriminate |].
    split; [exact Pq |].
    rewrite recvs_app. cbn [app recvs]. rewrite recvs_app, Pr. reflexivity.
Qed.

(** Moves of the environment alone leave the loop where it is. *)
Lemma run_env_only (ls : list label) :
  forall w w' : World,
    forallb isEnv ls = true ->
    run ls w = Some w' ->
    trace w' = trace w /\
    headersQueue (fwd w') = headersQueue (fwd w) ++ sends ls /\
    sameButQueue (fwd w) (fwd w') /\
    (at_pc w = LoopSelect -> at_pc w' = LoopSelect) /\
    (at_pc w = Returned -> at_pc w' = Returned).
Proof.
  induction ls as [| l ls IH]; intros w w' Henv Hrun; cbn [run] in Hrun.
  - inversion Hrun; subst. cbn. rewrite app_nil_r.
    unfold sameButQueue. auto 8.
  - cbn [forallb] in Henv. apply andb_true_iff in Henv.
    destruct Henv as [Hl Henv].
    destruct (step l w) as [w1 |] eqn:Hstep; [| discriminate].
    assert (Hloc : at_pc w1 = withTimer (at_pc w) (pendingTimer (at_pc w1))).
    { destruct l; try discriminate Hl; env_move Hstep Hes;
        destruct (at_pc w); reflexivity. }
    apply env_cases in Hstep; [| intros c ->; discriminate Hl].
    destruct Hstep as (Ht & Hq & (S1 & S2 & S3) & _).
    destruct (IH w1 w' Henv Hrun) as (Ht' & Hq' & (T1 & T2 & T3) & HL & HR).
    split; [congruence |].
    split; [rewrite Hq', Hq, (sends_cons l ls), app_assoc; reflexivity |].
    split; [unfold sameButQueue; repeat split; congruence |].
    split; intros Hw; rewrite Hw in Hloc; cbn in Hloc; auto.
Qed.

(** X9.  When the context is cancelled before the loop makes its first move,
    as in [TestForwarder_PushingLoop_ContextCancellationShutdown], the loop
    never receives, pushes or hands over anything: whatever is sent before
    or after stays in the queue, in order. *)
Theorem X9_cancelled_before_the_first_move :
  forall (pre ls : list label) (w : World),
    forallb isEnv pre = true ->
    run (pre ++ Cancel :: ls) RunForwarder = Some w ->
    headersQueue (fwd w) = sends pre ++ sends ls /\
    recvs (trace w) = [] /\
    pushes (trace w) = [] /\
    updates (trace w) = [] /\
    processedHeaders (fwd w) = 0.
Proof.
  intros pre ls w Hpre Hrun.
  apply run_app in Hrun. destruct Hrun as (w1 & Hrun1 & Hrun2).
  destruct (run_env_only pre RunForwarder w1 Hpre Hrun1)
    as (Ht1 & Hq1 & (Hp1 & _) & Hloc1 & _).
  specialize (Hloc1 eq_refl).
  cbn [run] in Hrun2.
  destruct (step Cancel w1) as [w2 |] eqn:Hstep; [| discriminate].
  assert (Hc2 : cancelled w2).
  { pose proof Hstep as Hs. env_move Hs Henv. cbn in Henv.
    inversion Henv; subst.
    unfold cancelled. cbn. rewrite Hloc1. cbn. auto. }
  apply env_cases in Hstep; [| discriminate].
  destruct Hstep as (Ht2 & Hq2 & (Hp2 & _) & _).
  destruct (run_cancelled ls w2 w Hc2 Hrun2)
    as (_ & Hq & (Hp & _) & evs & Ht & Hr & Hpu & Hu).
  rewrite Ht, Ht2, Ht1. cbn [RunForwarder trace app].
  rewrite Hq, Hq2, Hq1, Hp, Hp2, Hp1. cbn. rewrite app_nil_r. auto.
Qed.

(** The pushes and the hand-overs of the move that pushes. *)
Lemma push_move_counts (e : event) (got r : list Header) (c : bool)
    (f : Forwarder) :
  turnEvent e got c ->
  r <> [] ->
  len (pushes (e :: EvPulled r :: EvPush r ::
                     snd (pushHeadersToChain f r) ++
                     [EvSleep forwarderSleepTime])) <= 1 /\
  len (updates (e :: EvPulled r :: EvPush r ::
                      snd (pushHeadersToChain f r) ++
                      [EvSleep forwarderSleepTime])) <= 1.
Proof.
  intros Hturn Hne.
  destruct (turnEvent_obs _ _ _ Hturn) as (_ & Hp & _).
  destruct (push_move_obs e got r c f Hturn Hne) as [_ ->].
  destruct (push_obs f r Hne) as (_ & Pp & _).
  split.
  - change (pushes (e :: EvPulled r :: EvPush r ::
              snd (pushHeadersToChain f r) ++ [EvSleep forwarderSleepTime]))
      with (pushes ([e] ++ EvPulled r :: EvPush r ::
              snd (pushHeadersToChain f r) ++ [EvSleep forwarderSleepTime])).
    rewrite pushes_app, Hp. cbn [app pushes]. rewrite pushes_app, Pp.
    cbn. unfold len. cbn. lia.
  - destruct r as [| first rest]; [contradiction |].
    destruct (push_cases f first rest) as [[-> _] | [-> _]];
      unfold len; cbn; lia.
Qed.

(** Once the context is cancelled, the loop pushes at most one batch more
    and hands over at most one best header more. *)
Lemma run_signalled (ls : list label) :
  forall w w' : World,
    ctx w = true ->
    run ls w = Some w' ->
    exists evs,
      trace w' = trace w ++ evs /\
      len (pushes evs) <= 1 /\
      len (updates evs) <= 1.
Proof.
  induction ls as [| l ls IH]; intros w w' Hctx Hrun; cbn [run] in Hrun.
  - inversion Hrun; subst. exists []. rewrite app_nil_r.
    unfold len. cbn. repeat split; lia.
  - destruct (step l w) as [w1 |] eqn:Hstep; [| discriminate].
    assert (Hquiet : forall evs1,
               cancelled w1 -> trace w1 = trace w ++ evs1 ->
               len (pushes evs1) <= 1 ->
               len (updates evs1) <= 1 ->
               exists evs,
                 trace w' = trace w ++ evs /\
                 len (pushes evs) <= 1 /\
                 len (updates evs) <= 1).
    { intros evs1 Hc1 Ht1 Hp1 Hu1.
      destruct (run_cancelled ls w1 w' Hc1 Hrun)
        as (_ & _ & _ & evs2 & Ht2 & _ & Hp2 & Hu2).
      exists (evs1 ++ evs2).
      rewrite Ht2, Ht1, app_assoc, pushes_app, updates_app, Hp2, Hu2.
      rewrite !app_nil_r. auto. }
    destruct l as [h | | | c].
    1-3: pose proof Hstep as Henv; apply env_cases in Henv;
         [| discriminate];
         destruct Henv as (Ht & _ & _ & _ & Hc & _);
         destruct (IH w1 w' (Hc Hctx) Hrun) as (evs & Ht' & Hp & Hu);
         exists evs; rewrite Ht', Ht; auto.
    apply select_cases in Hstep.
    destruct Hstep as
      (Hctx1 & [(Hat & _ & Hat' & Hf & Htr)
         | [(Hat & Hc & Hat' & Hf & Htr)
           | [(hs & t & e & got & Hat & Hturn & Hq & _ & Hat' & Htr)
             | [(t & e & Hat & Hturn & Hf & Hat' & Htr)
               | [(hs & t & e & got & f1 & Hat & Hturn & Hq & _ & Hne & Hf & Hat' & Htr)
                 | [(Hat & Hat' & Hf & Htr)
                   | (after & Hat & _ & Hat' & Hf & Htr)]]]]]]).
    + apply (Hquiet [EvCtxDone; EvReturn]); unfold len; cbn; auto; try lia.
      unfold cancelled. rewrite Hctx1, Hat'. auto.
    + congruence.
    + destruct (IH w1 w') as (evs & Ht' & Hp & Hu);
        [congruence | exact Hrun |].
      destruct (turnEvent_obs _ _ _ Hturn) as (_ & Hpe & Hue & _).
      exists ([e] ++ evs).
      rewrite Ht', Htr, <- app_assoc, pushes_app, updates_app, Hpe, Hue.
      auto.
    + destruct (turnEvent_obs _ _ _ Hturn) as (_ & Hpe & Hue & _).
      apply (Hquiet [e; EvPulled []]); auto.
      * unfold cancelled. rewrite Hctx1, Hat'. auto.
      * change [e; EvPulled []] with ([e] ++ [EvPulled []]).
        rewrite pushes_app, Hpe. unfold len. cbn. lia.
      * change [e; EvPulled []] with ([e] ++ [EvPulled []]).
        rewrite updates_app, Hue. unfold len. cbn. lia.
    + destruct (push_move_counts e got (hs ++ got) (ctx w) f1 Hturn Hne)
        as [Hp Hu].
      eapply Hquiet; [| exact Htr | exact Hp | exact Hu].
      unfold cancelled. rewrite Hctx1, Hat'. cbn. auto.
    + apply (Hquiet [EvWake]); unfold len; cbn; auto; try lia.
      unfold cancelled. rewrite Hctx1, Hat'. auto.
    + apply (Hquiet [EvCtxDone]); unfold len; cbn; auto; try lia.
      unfold cancelled. rewrite Hctx1, Hat'. auto.
Qed.

(** X10.  From the call of [cancelCtx()] on, wherever the loop is and
    whatever the schedule, at most one more batch is pushed and at most one
    more best header handed over. *)
Theorem X10_at_most_one_push_after_cancel :
  forall (ls : list label) (w w' : World),
    run (Cancel :: ls) w = Some w' ->
    exists evs,
      trace w' = trace w ++ evs /\
      len (pushes evs) <= 1 /\
      len (updates evs) <= 1.
Proof.
  intros ls w w' Hrun. cbn [run] in Hrun.
  destruct (step Cancel w) as [w1 |] eqn:Hstep; [| discriminate].
  assert (Hctx : ctx w1 = true).
  { pose proof Hstep as Hs. env_move Hs Henv. cbn in Henv.
    inversion Henv; reflexivity. }
  apply env_cases in Hstep; [| discriminate].
  destruct Hstep as (Ht & _).
  destruct (run_signalled ls w1 w' Hctx Hrun) as (evs & Ht' & Hp & Hu).
  exists evs. rewrite Ht', Ht. auto.
Qed.

(** A loop that has returned stays so: only the environment moves. *)
Lemma run_returned (ls : list label) :
  forall w w' : World,
    at_pc w = Returned ->
    run ls w = Some w' ->
    at_pc w' = Returned /\ trace w' = trace w /\ forallb isEnv ls = true.
Proof.
  induction ls as [| l ls IH]; intros w w' Hat Hrun; cbn [run] in Hrun.
  - inversion Hrun; subst. auto.
  - destruct (step l w) as [w1 |] eqn:Hstep; [| discriminate].
    destruct l as [h | | | c].
    1-3: apply env_cases in Hstep; [| discriminate];
         destruct Hstep as (Ht & _ & _ & _ & _ & _ & Hret);
         destruct (IH w1 w' (proj2 Hret Hat) Hrun) as (H1 & H2 & H3);
         cbn [forallb isEnv]; rewrite H2, Ht; auto.
    cbn [step] in Hstep. unfold loopSelect in Hstep. rewrite Hat in Hstep.
    discriminate.
Qed.


Lemma step_stoppedByCancel (l : label) (w w' : World) :
  stoppedByCancel w -> step l w = Some w' -> stoppedByCancel w'.
Proof.
  intros Hinv Hstep Hat'. destruct l as [h | | | c].
  1-3: apply env_cases in Hstep; [| discriminate];
       destruct Hstep as (Ht & _ & _ & _ & Hc & _ & Hret);
       destruct (Hinv (proj1 Hret Hat')) as [Hctx Htr];
       rewrite Ht; auto.
  apply select_cases in Hstep.
  destruct Hstep as
    (Hctx1 & [(Hat & Hc & _ & Hf & Htr)
       | [(_ & _ & Hp & _)
         | [(hs & t & e & got & _ & _ & _ & _ & Hp & _)
           | [(t & e & _ & _ & _ & Hp & _)
             | [(hs & t & e & got & f1 & _ & _ & _ & _ & _ & _ & Hp & _)
               | [(_ & Hp & _)
                 | (after & _ & _ & Hp & _)]]]]]]);
    try congruence.
  split; [congruence |]. exists (trace w). exact Htr.
Qed.

(** X11.  The loop returns only by taking [ctx.Done()] at the top of an
    iteration, with the context cancelled; once it has returned it makes no
    move and logs nothing more. *)
Theorem X11_the_loop_stops_only_on_cancellation :
  forall (ls : list label) (w : World),
    run ls RunForwarder = Some w ->
    at_pc w = Returned ->
    ctx w = true /\
    (exists tr, trace w = tr ++ [EvCtxDone; EvReturn]) /\
    (forall (ls' : list label) (w' : World),
        run ls' w = Some w' ->
        at_pc w' = Returned /\ trace w' = trace w /\
        forallb isEnv ls' = true).
Proof.
  intros ls w Hrun Hat.
  assert (Hinv : stoppedByCancel w).
  { apply (run_invariant stoppedByCancel step_stoppedByCancel ls
             RunForwarder w); [| exact Hrun].
    intros H. discriminate H. }
  destruct (Hinv Hat) as [Hctx Htr].
  split; [exact Hctx |]. split; [exact Htr |].
  intros ls' w' Hrun'. apply (run_returned ls' w w' Hat Hrun').
Qed.

(** No move writes to the error channel or calls the host chain. *)
Lemma step_channels (l : label) (w w' : World) :
  step l w = Some w' ->
  errChan (fwd w') = errChan (fwd w) /\
  hostChain (fwd w') = hostChain (fwd w).
Proof.
  intros Hstep. destruct l as [h | | | c].
  1-3: apply env_cases in Hstep; [| discriminate];
       destruct Hstep as (_ & _ & (_ & Hh & He) & _); auto.
  apply select_cases in Hstep.
  destruct Hstep as
    (_ & [(_ & _ & _ & Hf & _)
       | [(_ & _ & _ & Hf & _)
         | [(hs & t & e & got & _ & _ & _ & (_ & Hh & He) & _)
           | [(t & e & _ & _ & Hf & _)
             | [(hs & t & e & got & f1 & _ & _ & _ & (_ & Hh & He) & Hne & Hf & _)
               | [(_ & _ & Hf & _)
                 | (after & _ & _ & _ & Hf & _)]]]]]]);
    try (rewrite Hf; auto; fail); auto.
  destruct (push_obs f1 (hs ++ got) Hne) as (_ & _ & _ & _ & Ph & Pe).
  rewrite Hf, Ph, Pe. auto.
Qed.

(** X12.  No run, from any state, writes to the error channel or calls the
    host chain: both are after the run what they were before. *)
Theorem X12_error_channel_and_host_chain_untouched :
  forall (ls : list label) (w w' : World),
    run ls w = Some w' ->
    ErrChan (fwd w') = ErrChan (fwd w) /\
    hostChain (fwd w') = hostChain (fwd w).
Proof.
  induction ls as [| l ls IH]; intros w w' Hrun; cbn [run] in Hrun.
  - inversion Hrun; subst. auto.
  - destruct (step l w) as [w1 |] eqn:Hstep; [| discriminate].
    destruct (step_channels l w w1 Hstep) as [He Hh].
    destruct (IH w1 w' Hrun) as [He' Hh'].
    unfold ErrChan in *. split; congruence.
Qed.

Lemma step_timersSet (l : label) (w w' : World) :
  timersSet w -> step l w = Some w' -> timersSet w'.
Proof.
  unfold timersSet. intros Hinv Hstep. destruct l as [h | | | c].
  1-3: env_move Hstep Henv; cbn in Henv.
  - destruct (_ <? _); inversion Henv; subst.
    destruct (at_pc w); cbn; auto.
  - inversion Henv; subst. destruct (at_pc w); cbn; auto.
  - destruct (at_pc w) as [| hs tp | tp |]; cbn in *; try discriminate;
      destruct tp; inversion Henv; subst; auto.
  - apply select_cases in Hstep.
    destruct Hstep as
      (_ & [(_ & _ & -> & _)
         | [(_ & _ & -> & _)
           | [(hs & t & e & got & _ & _ & _ & _ & -> & _)
             | [(t & e & _ & _ & _ & -> & _)
               | [(hs & t & e & got & f1 & _ & _ & _ & _ & _ & _ & -> & _)
                 | [(_ & -> & _)
                   | (after & _ & _ & -> & _)]]]]]]); cbn; auto.
Qed.

(** X13.  Wherever the running forwarder is parked in the pull phase, its
    idle timer is armed for one second or has expired; wherever it rests,
    the timer is armed for 45 seconds or has expired. *)
Theorem X13_timers_run_for_one_and_45_seconds :
  forall (ls : list label) (w : World),
    run ls RunForwarder = Some w ->
    (forall headers t,
        at_pc w = PullSelect headers t ->
        t = Active (1 * 1000000000) \/ t = Fired) /\
    (forall t,
        at_pc w = SleepSelect t ->
        t = Active (45 * 1000000000) \/ t = Fired).
Proof.
  intros ls w Hrun.
  assert (Hinv : timersSet w).
  { apply (run_invariant timersSet step_timersSet ls RunForwarder w);
      [exact I | exact Hrun]. }
  unfold timersSet in Hinv.
  split; intros; rewrite H in Hinv; exact Hinv.
Qed.

Lemma X2_pull_conserves_the_queue_witness :
  exists used,
    [Send (headerAt 2); Select CaseHeader; Select CaseHeader; Expire;
     Select CaseTimer; Cancel] = used ++ [Cancel] /\
    [headerAt 1; headerAt 2] ++ [] = [headerAt 1] ++ sends used /\
    sameButQueue (set_headersQueue newForwarder [headerAt 1]) newForwarder.
Proof.
  apply (X2_pull_conserves_the_queue
           [Send (headerAt 2); Select CaseHeader; Select CaseHeader; Expire;
            Select CaseTimer; Cancel]
           (set_headersQueue newForwarder [headerAt 1]) false
           [headerAt 1; headerAt 2] newForwarder false [Cancel]).
  reflexivity.
Defined.

Lemma X3_empty_pull_means_cancelled_witness :
  pullHeadersFromQueue [Expire; Select CaseTimer; Cancel; Select CaseCtxDone]
    newForwarder false = Some ([], newForwarder, true, []) /\
  true = true.
Proof.
  split; [reflexivity |].
  apply (X3_empty_pull_means_cancelled
           [Expire; Select CaseTimer; Cancel; Select CaseCtxDone]
           newForwarder false [] newForwarder true []);
    reflexivity.
Defined.

Lemma X4_receive_never_blocks_on_the_timer_witness :
  exists w w',
    run [Send (headerAt 1); Select CaseDefault; Expire] RunForwarder = Some w /\
    at_pc w = PullSelect [] Fired /\
    step (Select CaseHeader) w = Some w' /\
    headersQueue (fwd w') = [] /\
    recvs (trace w') = recvs (trace w) ++ [headerAt 1].
Proof.
  pose (w := mkWorld (set_headersQueue newForwarder [headerAt 1]) false
               (PullSelect [] Fired) []).
  assert (Hrun : run [Send (headerAt 1); Select CaseDefault; Expire]
                   RunForwarder = Some w) by reflexivity.
  destruct (X4_receive_never_blocks_on_the_timer _ w [] Fired (headerAt 1) []
              Hrun eq_refl eq_refl) as (w' & Hstep & Hq & Hr).
  exists w, w'. auto.
Defined.

Lemma X5_headers_are_pushed_in_the_order_sent_witness :
  exists w,
    run errorShutdownContinued RunForwarder = Some w /\
    sends errorShutdownContinued =
      pushed (trace w) ++ held (at_pc w) ++ headersQueue (fwd w).
Proof.
  eexists. split; [by_running |].
  apply (X5_headers_are_pushed_in_the_order_sent errorShutdownContinued).
  by_running.
Defined.

Lemma X6_pushed_batches_have_one_to_five_headers_witness :
  exists w,
    run errorShutdownContinued RunForwarder = Some w /\
    Forall (fun b => 1 <= len b <= 5) (pushes (trace w)).
Proof.
  eexists. split; [by_running |].
  apply (X6_pushed_batches_have_one_to_five_headers errorShutdownContinued).
  by_running.
Defined.

Lemma X7_two_pushes_are_a_rest_apart_witness :
  In EvWake (firstn 10 (skipn 7 (traceOf errorShutdownContinued))).
Proof.
  pose (tr := traceOf errorShutdownContinued).
  assert (Hrun : run errorShutdownContinued RunForwarder =
                 Some (mkWorld (set_headersQueue newForwarder []) false
                         (SleepSelect (NewTimer forwarderSleepTime)) tr))
    by by_running.
  apply (X7_two_pushes_are_a_rest_apart _ _ Hrun
           (firstn 6 tr) (firstn 10 (skipn 7 tr)) (skipn 18 tr)
           (map headerAt [1; 2; 3; 4; 5]) (map headerAt [6; 7; 8; 9; 10])).
  by_running.
Defined.

Lemma X8_best_header_every_five_to_nine_headers_witness :
  exists w,
    run cancelDuringPullSchedule RunForwarder = Some w /\
    5 * len (updates (trace w)) + processedHeaders (fwd w)
      <= len (pushed (trace w))
      <= 9 * len (updates (trace w)) + processedHeaders (fwd w).
Proof.
  eexists. split; [by_running |].
  apply (X8_best_header_every_five_to_nine_headers cancelDuringPullSchedule).
  by_running.
Defined.

Lemma X9_cancelled_before_the_first_move_witness :
  exists w,
    run ([Send (headerAt 1)] ++
         Cancel :: [Send (headerAt 2); Select CaseCtxDone; Send (headerAt 3)])
      RunForwarder = Some w /\
    headersQueue (fwd w) = [headerAt 1] ++ [headerAt 2; headerAt 3] /\
    recvs (trace w) = [] /\
    pushes (trace w) = [] /\
    updates (trace w) = [] /\
    processedHeaders (fwd w) = 0.
Proof.
  eexists. split; [by_running |].
  apply (X9_cancelled_before_the_first_move [Send (headerAt 1)]
           [Send (headerAt 2); Select CaseCtxDone; Send (headerAt 3)]);
    by_running.
Defined.

Lemma X10_at_most_one_push_after_cancel_witness :
  exists evs,
    [EvRecv (headerAt 2); EvCtxDone;
     EvPulled [headerAt 1; headerAt 2]; EvPush [headerAt 1; headerAt 2];
     EvBranch NoDifficultyChange; EvSleep forwarderSleepTime;
     EvCtxDone; EvCtxDone; EvReturn] = [] ++ evs /\
    len (pushes evs) <= 1 /\
    len (updates evs) <= 1.
Proof.
  apply (X10_at_most_one_push_after_cancel
           [Select CaseHeader; Select CaseCtxDone; Select CaseCtxDone;
            Select CaseCtxDone]
           (mkWorld (set_headersQueue newForwarder [headerAt 2; headerAt 3])
              false (PullSelect [headerAt 1] (Active headerTimeout)) [])
           (mkWorld (set_processedHeaders
                       (set_headersQueue newForwarder [headerAt 3]) 2)
              true Returned
              [EvRecv (headerAt 2); EvCtxDone;
               EvPulled [headerAt 1; headerAt 2];
               EvPush [headerAt 1; headerAt 2];
               EvBranch NoDifficultyChange; EvSleep forwarderSleepTime;
               EvCtxDone; EvCtxDone; EvReturn])).
  reflexivity.
Defined.

Lemma X11_the_loop_stops_only_on_cancellation_witness :
  exists w,
    run [Cancel; Select CaseCtxDone] RunForwarder = Some w /\
    ctx w = true /\
    (exists tr, trace w = tr ++ [EvCtxDone; EvReturn]) /\
    step (Select CaseCtxDone) w = None.
Proof.
  pose (w := mkWorld newForwarder true Returned [EvCtxDone; EvReturn]).
  assert (Hrun : run [Cancel; Select CaseCtxDone] RunForwarder = Some w)
    by reflexivity.
  destruct (X11_the_loop_stops_only_on_cancellation _ w Hrun eq_refl)
    as (Hctx & Htr & Hfinal).
  exists w. split; [exact Hrun |]. split; [exact Hctx |].
  split; [exact Htr |].
  destruct (step (Select CaseCtxDone) w) as [w' |] eqn:Hstep;
    [| reflexivity].
  destruct (Hfinal [Select CaseCtxDone] w') as (_ & _ & Henv).
  - cbn [run]. rewrite Hstep. reflexivity.
  - discriminate Henv.
Defined.

Lemma X12_error_channel_and_host_chain_untouched_witness :
  exists w,
    run cancelDuringPullSchedule RunForwarder = Some w /\
    ErrChan (fwd w) = ErrChan (fwd RunForwarder) /\
    hostChain (fwd w) = hostChain (fwd RunForwarder).
Proof.
  eexists. split; [by_running |].
  apply (X12_error_channel_and_host_chain_untouched cancelDuringPullSchedule).
  by_running.
Defined.

Lemma X13_timers_run_for_one_and_45_seconds_witness :
  exists w,
    run errorShutdownSchedule RunForwarder = Some w /\
    at_pc w = SleepSelect (Active (45 * 1000000000)).
Proof.
  eexists. split; [by_running |].
  match goal with
  | |- at_pc ?w = _ =>
      destruct (X13_timers_run_for_one_and_45_seconds errorShutdownSchedule w)
        as [_ Hsleep]; [by_running |]
  end.
  destruct (Hsleep (NewTimer forwarderSleepTime) eq_refl) as [H | H];
    [rewrite <- H; reflexivity | discriminate H].
Defined.
